(** * In-memory blob descriptor cache (registry/storage/cache/memory.go)

    A shallow embedding of the two-tier descriptor cache: the map-backed
    leaf cache [mapBlobDescriptorCache], the provider
    [inMemoryBlobDescriptorCacheProvider] that owns the global leaf cache and
    the table of per-repository leaf caches, and the repository scoped view
    [repositoryScopedInMemoryBlobDescriptorCache].

    Go pointers to leaf caches are addresses into an explicit heap, so that
    two views of one repository share the leaf cache they point to, and a view
    whose pointer is still nil stays so until it writes.  The mutexes are not
    modelled: every operation runs to completion before the next one starts.
    A call ends by returning or by panicking; what it wrote before a panic
    stays written. *)

From Stdlib Require Import ZArith Ascii.
From stdpp Require Import base option strings list gmap.

Set Default Proof Using "Type".

(** ** The digest package *)

Module digest.

(** [type Digest string] *)
Definition Digest : Type := string.

End digest.

(** ** The distribution package: descriptors and errors *)

Module distribution.

(** Modelled from the spec: the struct [distribution.Descriptor] is not
    under src/; the spec gives it a digest, a size and a media type. *)
Record Descriptor : Type := mkDescriptor {
  MediaType : string;
  Size : Z;
  Digest : digest.Digest
}.

(** Modelled from the spec: the error values are declared outside src/; the
    spec lists four kinds.  [ErrBlobUnknown] is the value memory.go compares
    against. *)
Inductive error : Type :=
  | ErrBlobUnknown
  | ErrInvalidDigest
  | ErrInvalidDescriptor
  | ErrInvalidRepositoryName.

#[global] Instance error_eq_dec : EqDecision error.
Proof. solve_decision. Defined.

End distribution.

Export distribution.

(** A Go result [(T, error)]: either the value with a nil error, or the
    error. *)
Inductive result (A : Type) : Type :=
| Ok (a : A)
| Err (e : error).
Arguments Ok {A} a.
Arguments Err {A} e.

(** How a call that returns an [error] ends: it returns (nil or an error),
    or it panics and returns nothing. *)
Inductive outcome : Type :=
| Returns (err : option error)
| Panics.

(** ** The collaborators memory.go calls into

    [digest.Digest.Algorithm], [validateDigest], [validateDescriptor] and
    [v2.ValidateRepositoryName] live outside src/.  They are taken as
    parameters: three arbitrary decidable notions of being well formed, and
    an algorithm tag.  Everything proved below holds for each choice of
    them.

    Modelled from the spec: the digest package is not under src/.  A digest
    is a content hash tagged with its hashing algorithm.  The Go method
    [Algorithm] returns the tag and panics on a string that carries none:
    [Algorithm d] is [None] where the method panics.  A digest that passes
    validation carries a tag. *)
Class Collaborators : Type := {
  Algorithm : digest.Digest → option string;
  digest_well_formed : digest.Digest → bool;
  descriptor_well_formed : Descriptor → bool;
  repository_name_well_formed : string → bool;
  well_formed_has_algorithm :
    ∀ d, digest_well_formed d = true → is_Some (Algorithm d)
}.

Section validators.
Context `{!Collaborators}.

(** Modelled from the spec: [validateDigest] is not under src/; it fails
    with [InvalidDigest] when the digest fails format validation. *)
Definition validateDigest (dgst : digest.Digest) : option error :=
  if digest_well_formed dgst then None else Some ErrInvalidDigest.

(** Modelled from the spec: [validateDescriptor] is not under src/; it
    fails with [InvalidDescriptor] when the descriptor fails validation. *)
Definition validateDescriptor (desc : Descriptor) : option error :=
  if descriptor_well_formed desc then None else Some ErrInvalidDescriptor.

(** Modelled from the spec: [v2.ValidateRepositoryName] is not under src/;
    it fails with [InvalidRepositoryName] when the name fails namespace
    validation. *)
Definition ValidateRepositoryName (repo : string) : option error :=
  if repository_name_well_formed repo then None
  else Some ErrInvalidRepositoryName.
End validators.

(** ** Memory: leaf caches behind pointers *)

(** A non-nil [*mapBlobDescriptorCache]: an address in the heap. *)
Abbreviation ptr := nat (only parsing).

(** The provider struct: [global] and [repositories]. *)
Record inMemoryBlobDescriptorCacheProvider : Type := mkProvider {
  global : ptr;
  repositories : gmap string ptr
}.

(** The allocated leaf caches together with the one provider. *)
Record Memory : Type := mkMemory {
  caches : list (gmap digest.Digest Descriptor);
  provider : inMemoryBlobDescriptorCacheProvider
}.

(** The view struct; its [parent] is the provider of the memory. *)
Record repositoryScopedInMemoryBlobDescriptorCache : Type := mkView {
  repo : string;
  repository : option ptr
}.

(** [newMapBlobDescriptorCache]: a fresh address holding an empty map. *)
Definition newMapBlobDescriptorCache (m : Memory) : Memory * ptr :=
  (mkMemory (caches m ++ [∅]) (provider m), length (caches m)).

(** Reading and writing through a pointer.  An address outside the heap
    reads as the empty map and is not written; no reachable state holds such
    an address ([reachable_well_formed]). *)
Definition load (m : Memory) (p : ptr) : gmap digest.Digest Descriptor :=
  caches m !!! p.

Definition store (m : Memory) (p : ptr) (c : gmap digest.Digest Descriptor) : Memory :=
  mkMemory (<[p := c]> (caches m)) (provider m).

(** [NewInMemoryBlobDescriptorCacheProvider] *)
Definition NewInMemoryBlobDescriptorCacheProvider : Memory :=
  let (m, g) := newMapBlobDescriptorCache (mkMemory [] (mkProvider 0 ∅)) in
  mkMemory (caches m) (mkProvider g ∅).

(** ** mapBlobDescriptorCache (receiver [mbdc]) *)

Module mbdc.
Section methods.
Context `{!Collaborators}.

Definition Stat (m : Memory) (mbdc : ptr) (dgst : digest.Digest)
  : result Descriptor :=
  match validateDigest dgst with
  | Some err => Err err
  | None =>
      match load m mbdc !! dgst with
      | None => Err ErrBlobUnknown
      | Some desc => Ok desc
      end
  end.

Definition SetDescriptor (m : Memory) (mbdc : ptr) (dgst : digest.Digest)
    (desc : Descriptor) : Memory * option error :=
  match validateDigest dgst with
  | Some err => (m, Some err)
  | None =>
      match validateDescriptor desc with
      | Some err => (m, Some err)
      | None => (store m mbdc (<[dgst := desc]> (load m mbdc)), None)
      end
  end.
End methods.
End mbdc.

(** What the leaf cache's [SetDescriptor] returned, returned in turn. *)
Definition returned (r : Memory * option error) : Memory * outcome :=
  (r.1, Returns r.2).

(** ** inMemoryBlobDescriptorCacheProvider (receiver [imbdcp]) *)

Module imbdcp.
Section methods.
Context `{!Collaborators}.

Definition RepositoryScoped (m : Memory) (repo : string)
  : result repositoryScopedInMemoryBlobDescriptorCache :=
  match ValidateRepositoryName repo with
  | Some err => Err err
  | None => Ok (mkView repo (repositories (provider m) !! repo))
  end.

Definition Stat (m : Memory) (dgst : digest.Digest) : result Descriptor :=
  mbdc.Stat m (global (provider m)) dgst.

(** Line 50 evaluates [dgst.Algorithm()] and [desc.Digest.Algorithm()]
    before anything is validated or written: if one of them panics, the
    call panics on the memory it was given. *)
Definition SetDescriptor (m : Memory) (dgst : digest.Digest) (desc : Descriptor)
  : Memory * outcome :=
  match Stat m dgst with
  | Err ErrBlobUnknown =>
      match Algorithm dgst, Algorithm (Digest desc) with
      | Some a, Some a' =>
          if bool_decide (a ≠ a') && bool_decide (dgst ≠ Digest desc)
          then
            match mbdc.SetDescriptor m (global (provider m)) (Digest desc) desc with
            | (m', Some err) => (m', Returns (Some err))
            | (m', None) =>
                returned (mbdc.SetDescriptor m' (global (provider m')) dgst desc)
            end
          else returned (mbdc.SetDescriptor m (global (provider m)) dgst desc)
      | _, _ => (m, Panics)
      end
  | Err err => (m, Returns (Some err))
  | Ok _ => (m, Returns None)
  end.
End methods.
End imbdcp.

(** ** repositoryScopedInMemoryBlobDescriptorCache (receiver [rsimbdcp]) *)

Module rsimbdcp.
Section methods.
Context `{!Collaborators}.

Definition Stat (m : Memory)
    (rsimbdcp : repositoryScopedInMemoryBlobDescriptorCache)
    (dgst : digest.Digest) : result Descriptor :=
  match repository rsimbdcp with
  | None => Err ErrBlobUnknown
  | Some p => mbdc.Stat m p dgst
  end.

(** Lines 83-95: the lazy allocation.  Returns the memory, and the pointer
    the view holds afterwards. *)
Definition bind (m : Memory)
    (rsimbdcp : repositoryScopedInMemoryBlobDescriptorCache)
  : Memory * ptr :=
  match repository rsimbdcp with
  | Some p => (m, p)
  | None =>
      match repositories (provider m) !! repo rsimbdcp with
      | Some p => (m, p)
      | None =>
          let (m', p) := newMapBlobDescriptorCache m in
          (mkMemory (caches m')
             (mkProvider (global (provider m'))
                (<[repo rsimbdcp := p]> (repositories (provider m')))), p)
      end
  end.

(** The view is mutated (its [repository] field), so it is returned.  A
    panic of the provider's [SetDescriptor] passes through, after the
    binding and the write to the repository's leaf cache. *)
Definition SetDescriptor (m : Memory)
    (rsimbdcp : repositoryScopedInMemoryBlobDescriptorCache)
    (dgst : digest.Digest) (desc : Descriptor)
  : Memory * repositoryScopedInMemoryBlobDescriptorCache * outcome :=
  let (m1, p) := bind m rsimbdcp in
  let rsimbdcp' := mkView (repo rsimbdcp) (Some p) in
  match mbdc.SetDescriptor m1 p dgst desc with
  | (m2, Some err) => (m2, rsimbdcp', Returns (Some err))
  | (m2, None) =>
      let (m3, out) := imbdcp.SetDescriptor m2 dgst desc in
      (m3, rsimbdcp', out)
  end.
End methods.
End rsimbdcp.

(** ** Clients: a provider, the views handed out so far, and the calls made *)

Record System : Type := mkSystem {
  mem : Memory;
  views : list repositoryScopedInMemoryBlobDescriptorCache
}.

(** One call through the public interface.  A view is named by its position
    in [views], the order in which [RepositoryScoped] returned them. *)
Inductive call : Type :=
| CallRepositoryScoped (repo : string)
| CallStat (dgst : digest.Digest)
| CallSetDescriptor (dgst : digest.Digest) (desc : Descriptor)
| CallViewStat (i : nat) (dgst : digest.Digest)
| CallViewSetDescriptor (i : nat) (dgst : digest.Digest) (desc : Descriptor).

Definition fresh_system : System :=
  mkSystem NewInMemoryBlobDescriptorCacheProvider [].

Section clients.
Context `{!Collaborators}.

(** The effect of one call.  The two [Stat]s change nothing; a view returned
    by [RepositoryScoped] is added to the client's views; [SetDescriptor]
    through a view updates the memory and that view. *)
Definition exec (s : System) (c : call) : System :=
  match c with
  | CallRepositoryScoped repo =>
      match imbdcp.RepositoryScoped (mem s) repo with
      | Ok v => mkSystem (mem s) (views s ++ [v])
      | Err _ => s
      end
  | CallStat _ => s
  | CallSetDescriptor dgst desc =>
      mkSystem (imbdcp.SetDescriptor (mem s) dgst desc).1 (views s)
  | CallViewStat _ _ => s
  | CallViewSetDescriptor i dgst desc =>
      match views s !! i with
      | Some v =>
          let r := rsimbdcp.SetDescriptor (mem s) v dgst desc in
          mkSystem r.1.1 (<[i := r.1.2]> (views s))
      | None => s
      end
  end.

(** A sequence of calls, first to last. *)
Definition run (s : System) (cs : list call) : System := foldl exec s cs.

(** The states a client can bring a new provider to. *)
Definition reachable (s : System) : Prop :=
  ∃ cs, s = run fresh_system cs.

(** The repository a call writes to, if any. *)
Definition written_repository (s : System) (c : call) : option string :=
  match c with
  | CallViewSetDescriptor i _ _ => repo <$> views s !! i
  | _ => None
  end.

(** No call of the trace is a [SetDescriptor] on a view of [R]. *)
Fixpoint never_written (R : string) (s : System) (cs : list call) : Prop :=
  match cs with
  | [] => True
  | c :: cs' =>
      written_repository s c ≠ Some R ∧ never_written R (exec s c) cs'
  end.

(** No call of the trace is a [SetDescriptor] on the view at position [i]. *)
Definition view_idle (i : nat) (cs : list call) : Prop :=
  ∀ dgst desc, CallViewSetDescriptor i dgst desc ∉ cs.

(** The backing slot of a repository in the provider's table. *)
Definition Bound (m : Memory) (R : string) : Prop :=
  is_Some (repositories (provider m) !! R).

(** The Leaf Cache invariant of the data model, for one map and for one
    written pair. *)
Definition same_algorithm_agrees (k : digest.Digest) (v : Descriptor) : Prop :=
  Algorithm (Digest v) = Algorithm k → Digest v = k.

Definition leaf_invariant (c : gmap digest.Digest Descriptor) : Prop :=
  ∀ k v, c !! k = Some v → same_algorithm_agrees k v.

(** The invariant, of every allocated leaf cache. *)
Definition heap_invariant (m : Memory) : Prop :=
  Forall leaf_invariant (caches m).

(** A call whose [SetDescriptor] arguments satisfy the invariant. *)
Definition call_agrees (c : call) : Prop :=
  match c with
  | CallSetDescriptor dgst desc
  | CallViewSetDescriptor _ dgst desc => same_algorithm_agrees dgst desc
  | _ => True
  end.

(** Pointers are never dangling and the global leaf cache is not in the
    table; a bound view points where the table does. *)
Definition pointers_valid (m : Memory) : Prop :=
  global (provider m) < length (caches m) ∧
  ∀ R p, repositories (provider m) !! R = Some p →
         p < length (caches m) ∧ p ≠ global (provider m).

Definition view_valid (m : Memory)
    (w : repositoryScopedInMemoryBlobDescriptorCache) : Prop :=
  ∀ p, repository w = Some p → repositories (provider m) !! repo w = Some p.

Record well_formed (s : System) : Prop := {
  wf_mem : pointers_valid (mem s);
  wf_views : ∀ w, w ∈ views s → view_valid (mem s) w
}.
End clients.

(** ** Outcomes of the three SetDescriptor methods, as relations *)

Section outcomes.
Context `{!Collaborators}.

(** The three ways out of the leaf cache's [SetDescriptor]. *)
Inductive leaf_set_spec (m : Memory) (p : ptr) (d : digest.Digest)
      (v : Descriptor) : Memory * option error → Prop :=
  | leaf_set_bad_digest :
      digest_well_formed d = false →
      leaf_set_spec m p d v (m, Some ErrInvalidDigest)
  | leaf_set_bad_descriptor :
      digest_well_formed d = true → descriptor_well_formed v = false →
      leaf_set_spec m p d v (m, Some ErrInvalidDescriptor)
  | leaf_set_stored :
      digest_well_formed d = true → descriptor_well_formed v = true →
      leaf_set_spec m p d v (store m p (<[d := v]> (load m p)), None).

(** The three ways through the lazy allocation. *)
Inductive bind_spec (m : Memory)
      (w : repositoryScopedInMemoryBlobDescriptorCache) : Memory * ptr → Prop :=
  | bind_held p :
      repository w = Some p → bind_spec m w (m, p)
  | bind_adopted p :
      repository w = None →
      repositories (provider m) !! repo w = Some p →
      bind_spec m w (m, p)
  | bind_allocated :
      repository w = None →
      repositories (provider m) !! repo w = None →
      bind_spec m w
        (mkMemory (caches m ++ [∅])
           (mkProvider (global (provider m))
              (<[repo w := length (caches m)]> (repositories (provider m)))),
         length (caches m)).

(** What the global map holds after a first write of [v] under [d]. *)
Definition first_write (d : digest.Digest) (v : Descriptor)
    (c : gmap digest.Digest Descriptor) : gmap digest.Digest Descriptor :=
  <[d := v]>
    (if bool_decide (Algorithm d ≠ Algorithm (Digest v))
     then <[Digest v := v]> c else c).

(** The five ways out of the provider's [SetDescriptor]. *)
Inductive global_set_spec (m : Memory) (d : digest.Digest) (v : Descriptor)
    : Memory * outcome → Prop :=
  | global_set_known v0 :
      imbdcp.Stat m d = Ok v0 →
      global_set_spec m d v (m, Returns None)
  | global_set_invalid :
      digest_well_formed d = false →
      global_set_spec m d v (m, Returns (Some ErrInvalidDigest))
  | global_set_panics :
      imbdcp.Stat m d = Err ErrBlobUnknown →
      Algorithm (Digest v) = None →
      global_set_spec m d v (m, Panics)
  | global_set_bad_canonical :
      imbdcp.Stat m d = Err ErrBlobUnknown →
      is_Some (Algorithm (Digest v)) →
      Algorithm d ≠ Algorithm (Digest v) →
      digest_well_formed (Digest v) = false →
      global_set_spec m d v (m, Returns (Some ErrInvalidDigest))
  | global_set_bad_descriptor :
      imbdcp.Stat m d = Err ErrBlobUnknown →
      is_Some (Algorithm (Digest v)) →
      descriptor_well_formed v = false →
      global_set_spec m d v (m, Returns (Some ErrInvalidDescriptor))
  | global_set_stored :
      imbdcp.Stat m d = Err ErrBlobUnknown →
      is_Some (Algorithm (Digest v)) →
      descriptor_well_formed v = true →
      global_set_spec m d v
        (store m (global (provider m))
           (first_write d v (load m (global (provider m)))), Returns None).
End outcomes.

(** ** Further invariants of reachable memories *)

Section shape.
Context `{!Collaborators}.

(** The heap holds the global leaf cache at the address the provider was
    built with, and one leaf cache per entry of the repository table; two
    entries never share a leaf cache. *)
Record one_cache_per_repository (m : Memory) : Prop := {
  shape_global : global (provider m) = 0;
  shape_count : length (caches m) = S (size (repositories (provider m)));
  shape_distinct : ∀ R1 R2 p,
    repositories (provider m) !! R1 = Some p →
    repositories (provider m) !! R2 = Some p → R1 = R2
}.

(** A map whose keys and descriptors all passed validation. *)
Definition validated (c : gmap digest.Digest Descriptor) : Prop :=
  ∀ k v, c !! k = Some v →
         digest_well_formed k = true ∧ descriptor_well_formed v = true.

(** A digest with an entry in the leaf cache at an address. *)
Definition known (m : Memory) (p : ptr) (d : digest.Digest) : Prop :=
  is_Some (load m p !! d).

(** Every digest a repository's leaf cache knows is known to the global one. *)
Definition mirrored (m : Memory) : Prop :=
  ∀ R p d, repositories (provider m) !! R = Some p →
           known m p d → known m (global (provider m)) d.

(** A call that cannot rewrite the global entry under [D]: if it is a
    SetDescriptor of a descriptor whose digest is [D], its key has the
    algorithm of [D]. *)
Definition spares (D : digest.Digest) (c : call) : Prop :=
  match c with
  | CallSetDescriptor k v
  | CallViewSetDescriptor _ k v => Digest v = D → Algorithm k = Algorithm D
  | _ => True
  end.

(** The validators agree on digests: a descriptor that passes validation
    carries a digest that passes validation. *)
Definition descriptor_digest_checked : Prop :=
  ∀ v, descriptor_well_formed v = true → digest_well_formed (Digest v) = true.
End shape.

(** ** A concrete choice of collaborators

    Modelled from the spec: the digest package and the validators are not
    under src/.  A digest is a hash tagged with its algorithm, written
    [algorithm:hex]; its algorithm is the text before the colon, and there is
    none (the method panics) without a colon; a descriptor is well formed
    when its digest is, its size is not negative and its media type is not
    empty; a repository name is a non-empty run of lower-case letters, digits
    and separators. *)
Module sample.

Fixpoint before_colon (s : string) : string :=
  match s with
  | EmptyString => EmptyString
  | String c r =>
      if Ascii.eqb c ":"%char then EmptyString else String c (before_colon r)
  end.

Fixpoint has_colon (s : string) : bool :=
  match s with
  | EmptyString => false
  | String c r => if Ascii.eqb c ":"%char then true else has_colon r
  end.

Definition algorithm (d : digest.Digest) : option string :=
  if has_colon d then Some (before_colon d) else None.

Fixpoint after_colon (s : string) : string :=
  match s with
  | EmptyString => EmptyString
  | String c r => if Ascii.eqb c ":"%char then r else after_colon r
  end.

Fixpoint all_chars (f : Ascii.ascii → bool) (s : string) : bool :=
  match s with
  | EmptyString => true
  | String c r => f c && all_chars f r
  end.

Definition between (lo hi c : Ascii.ascii) : bool :=
  (Ascii.nat_of_ascii lo <=? Ascii.nat_of_ascii c)%nat && (Ascii.nat_of_ascii c <=? Ascii.nat_of_ascii hi)%nat.

Definition is_hex (c : Ascii.ascii) : bool :=
  between "0"%char "9"%char c || between "a"%char "f"%char c || between "A"%char "F"%char c.

Definition is_name_char (c : Ascii.ascii) : bool :=
  between "a"%char "z"%char c || between "0"%char "9"%char c
  || Ascii.eqb c "/"%char || Ascii.eqb c "-"%char || Ascii.eqb c "_"%char || Ascii.eqb c "."%char.

Definition non_empty (s : string) : bool :=
  match s with EmptyString => false | _ => true end.

Definition digest_ok (d : digest.Digest) : bool :=
  non_empty (before_colon d) && non_empty (after_colon d)
  && all_chars is_hex (after_colon d).

Definition descriptor_ok (desc : Descriptor) : bool :=
  digest_ok (Digest desc) && (0 <=? Size desc)%Z && non_empty (MediaType desc).

Definition name_ok (repo : string) : bool :=
  non_empty repo && all_chars is_name_char repo.

Lemma after_colon_has_colon (s : string) :
  non_empty (after_colon s) = true → has_colon s = true.
Proof.
  induction s as [|c r IH]; simpl; [done|].
  by destruct (Ascii.eqb c ":"%char).
Qed.

Lemma digest_ok_has_algorithm (d : digest.Digest) :
  digest_ok d = true → is_Some (algorithm d).
Proof.
  unfold digest_ok, algorithm.
  intros [[_ Hafter]%andb_prop _]%andb_prop.
  rewrite after_colon_has_colon by done. by eexists.
Qed.

#[export] Instance collaborators : Collaborators := {|
  Algorithm := algorithm;
  digest_well_formed := digest_ok;
  descriptor_well_formed := descriptor_ok;
  repository_name_well_formed := name_ok;
  well_formed_has_algorithm := digest_ok_has_algorithm
|}.

Definition blob (dgst : digest.Digest) (size : Z) : Descriptor :=
  mkDescriptor "application/octet-stream" size dgst.

End sample.

(** ** States to run the further properties on *)

Module scenario.
Import sample.

(** Views of two repositories, each written once under one digest. *)
Definition two_repositories : System :=
  run fresh_system
    [CallRepositoryScoped "library/ubuntu";
     CallRepositoryScoped "library/busybox";
     CallViewSetDescriptor 0 "sha256:aa" (blob "sha256:aa" 1);
     CallViewSetDescriptor 1 "sha256:aa" (blob "sha256:aa" 2)].

(** Two views of one repository, taken before anything was written. *)
Definition two_views : System :=
  run fresh_system
    [CallRepositoryScoped "library/ubuntu";
     CallRepositoryScoped "library/ubuntu"].

(** Two views of one repository, of which the second has written: the first
    still holds no pointer. *)
Definition stale_view : System :=
  run fresh_system
    [CallRepositoryScoped "library/ubuntu";
     CallRepositoryScoped "library/ubuntu";
     CallViewSetDescriptor 1 "sha256:aa" (blob "sha256:aa" 1)].

End scenario.

(** * Properties *)

(** ** Reading and writing through pointers *)

Lemma load_store_eq (m : Memory) (p : ptr) (c : gmap digest.Digest Descriptor) :
  p < length (caches m) → load (store m p c) p = c.
Proof.
  intros Hp. unfold load, store; simpl.
  apply list_lookup_total_correct. by apply list_lookup_insert_eq.
Qed.

Lemma load_store_ne (m : Memory) (p q : ptr) (c : gmap digest.Digest Descriptor) :
  p ≠ q → load (store m p c) q = load m q.
Proof.
  intros Hpq. unfold load, store; simpl.
  by rewrite list_lookup_total_insert_ne.
Qed.

Lemma load_alloc (m : Memory) (q : ptr) :
  q < length (caches m) → load (newMapBlobDescriptorCache m).1 q = load m q.
Proof.
  intros Hq. unfold load; simpl. by rewrite lookup_total_app_l.
Qed.

Lemma load_alloc_new (m : Memory) :
  load (newMapBlobDescriptorCache m).1 (newMapBlobDescriptorCache m).2 = ∅.
Proof.
  unfold load; simpl. apply list_lookup_total_correct.
  rewrite lookup_app_r; [|lia]. by rewrite Nat.sub_diag.
Qed.

Lemma elem_of_insert_inv {A : Type} (l : list A) (i : nat) (x y : A) :
  x ∈ <[i := y]> l → x = y ∨ x ∈ l.
Proof.
  intros [j Hj]%list_elem_of_lookup_1.
  apply list_lookup_insert_Some in Hj as [(_ & -> & _)|(_ & Hj)]; [by left|].
  right. by eapply list_elem_of_lookup_2.
Qed.

Section leaf.
Context `{!Collaborators}.

Lemma validateDigest_None (d : digest.Digest) :
  validateDigest d = None ↔ digest_well_formed d = true.
Proof. unfold validateDigest. destruct (digest_well_formed d); intuition congruence. Qed.

Lemma validateDigest_Some (d : digest.Digest) (e : error) :
  validateDigest d = Some e ↔ digest_well_formed d = false ∧ e = ErrInvalidDigest.
Proof. unfold validateDigest. destruct (digest_well_formed d); intuition congruence. Qed.

Lemma validateDescriptor_None (v : Descriptor) :
  validateDescriptor v = None ↔ descriptor_well_formed v = true.
Proof.
  unfold validateDescriptor. destruct (descriptor_well_formed v); intuition congruence.
Qed.

Lemma validateDescriptor_Some (v : Descriptor) (e : error) :
  validateDescriptor v = Some e ↔
  descriptor_well_formed v = false ∧ e = ErrInvalidDescriptor.
Proof.
  unfold validateDescriptor. destruct (descriptor_well_formed v); intuition congruence.
Qed.

Lemma mbdc_SetDescriptor_spec m p d v :
  leaf_set_spec m p d v (mbdc.SetDescriptor m p d v).
Proof.
  unfold mbdc.SetDescriptor, validateDigest, validateDescriptor.
  destruct (digest_well_formed d) eqn:Hd; [|by constructor].
  destruct (descriptor_well_formed v) eqn:Hv; by constructor.
Qed.

Lemma mbdc_Stat_store_eq m p d v c :
  p < length (caches m) → digest_well_formed d = true → c !! d = Some v →
  mbdc.Stat (store m p c) p d = Ok v.
Proof.
  intros Hp Hd Hc. unfold mbdc.Stat.
  apply validateDigest_None in Hd as ->. by rewrite load_store_eq, Hc.
Qed.

Lemma mbdc_Stat_Ok m p d v :
  mbdc.Stat m p d = Ok v ↔
  digest_well_formed d = true ∧ load m p !! d = Some v.
Proof.
  unfold mbdc.Stat, validateDigest.
  destruct (digest_well_formed d); [|intuition congruence].
  destruct (load m p !! d); intuition congruence.
Qed.

Lemma mbdc_Stat_unknown m p d :
  mbdc.Stat m p d = Err ErrBlobUnknown ↔
  digest_well_formed d = true ∧ load m p !! d = None.
Proof.
  unfold mbdc.Stat, validateDigest.
  destruct (digest_well_formed d); [|intuition congruence].
  destruct (load m p !! d); intuition congruence.
Qed.

Lemma mbdc_Stat_invalid m p d :
  digest_well_formed d = false → mbdc.Stat m p d = Err ErrInvalidDigest.
Proof. intros Hd. unfold mbdc.Stat, validateDigest. by rewrite Hd. Qed.

(** The provider's [SetDescriptor], case by case. *)
Lemma imbdcp_SetDescriptor_known m d v v0 :
  imbdcp.Stat m d = Ok v0 → imbdcp.SetDescriptor m d v = (m, Returns None).
Proof. intros Hs. unfold imbdcp.SetDescriptor. by rewrite Hs. Qed.

Lemma imbdcp_SetDescriptor_invalid m d v :
  digest_well_formed d = false →
  imbdcp.SetDescriptor m d v = (m, Returns (Some ErrInvalidDigest)).
Proof.
  intros Hd. unfold imbdcp.SetDescriptor, imbdcp.Stat.
  by rewrite mbdc_Stat_invalid.
Qed.

Lemma imbdcp_Stat_unknown_algorithm m d :
  imbdcp.Stat m d = Err ErrBlobUnknown → is_Some (Algorithm d).
Proof.
  intros [Hd _]%mbdc_Stat_unknown. by apply well_formed_has_algorithm.
Qed.

Lemma imbdcp_SetDescriptor_panics m d v :
  imbdcp.Stat m d = Err ErrBlobUnknown →
  Algorithm (Digest v) = None →
  imbdcp.SetDescriptor m d v = (m, Panics).
Proof.
  intros Hs Ha. unfold imbdcp.SetDescriptor. rewrite Hs, Ha.
  by destruct (Algorithm d).
Qed.

Lemma imbdcp_SetDescriptor_same_algorithm m d v :
  imbdcp.Stat m d = Err ErrBlobUnknown →
  Algorithm d = Algorithm (Digest v) →
  imbdcp.SetDescriptor m d v
  = returned (mbdc.SetDescriptor m (global (provider m)) d v).
Proof.
  intros Hs Ha. unfold imbdcp.SetDescriptor. rewrite Hs.
  destruct (imbdcp_Stat_unknown_algorithm m d Hs) as [a Hd].
  rewrite <- Ha, Hd.
  rewrite bool_decide_eq_false_2; [done|]. by intros [].
Qed.

Lemma imbdcp_SetDescriptor_other_algorithm m d v :
  imbdcp.Stat m d = Err ErrBlobUnknown →
  is_Some (Algorithm (Digest v)) →
  Algorithm d ≠ Algorithm (Digest v) →
  imbdcp.SetDescriptor m d v =
    match mbdc.SetDescriptor m (global (provider m)) (Digest v) v with
    | (m', Some err) => (m', Returns (Some err))
    | (m', None) =>
        returned (mbdc.SetDescriptor m' (global (provider m')) d v)
    end.
Proof.
  intros Hs [a' Hv] Ha. unfold imbdcp.SetDescriptor. rewrite Hs.
  destruct (imbdcp_Stat_unknown_algorithm m d Hs) as [a Hd].
  rewrite Hd, Hv in *.
  rewrite !bool_decide_eq_true_2; [done| |congruence].
  intros ->. congruence.
Qed.

(** Where the provider's [SetDescriptor] writes: nowhere, or what the leaf
    cache's writes under the key, or under the descriptor's digest and then
    under the key. *)
Lemma imbdcp_SetDescriptor_cases m d v :
  (imbdcp.SetDescriptor m d v).1 = m ∨
  imbdcp.SetDescriptor m d v
    = returned (mbdc.SetDescriptor m (global (provider m)) d v) ∨
  ∃ m', mbdc.SetDescriptor m (global (provider m)) (Digest v) v = (m', None) ∧
        imbdcp.SetDescriptor m d v
        = returned (mbdc.SetDescriptor m' (global (provider m')) d v).
Proof.
  destruct (imbdcp.Stat m d) as [v0|e] eqn:Hs.
  { left. by erewrite imbdcp_SetDescriptor_known. }
  destruct (digest_well_formed d) eqn:Hd.
  2:{ left. by rewrite imbdcp_SetDescriptor_invalid. }
  assert (e = ErrBlobUnknown) as ->.
  { unfold imbdcp.Stat, mbdc.Stat in Hs.
    apply validateDigest_None in Hd. rewrite Hd in Hs.
    destruct (load _ _ !! d); congruence. }
  destruct (Algorithm (Digest v)) as [a'|] eqn:Hv.
  2:{ left. by rewrite imbdcp_SetDescriptor_panics. }
  destruct (decide (Algorithm d = Algorithm (Digest v))) as [Ha|Ha].
  { right; left. apply imbdcp_SetDescriptor_same_algorithm; congruence. }
  rewrite imbdcp_SetDescriptor_other_algorithm; [|done|by rewrite Hv|done].
  destruct (mbdc.SetDescriptor m _ (Digest v) v) as [m' [err|]] eqn:Hc.
  - left. simpl.
    by destruct (mbdc_SetDescriptor_spec m (global (provider m)) (Digest v) v);
      simplify_eq.
  - right; right. by exists m'.
Qed.
End leaf.

(** ** What each operation leaves alone *)

Section frame.
Context `{!Collaborators}.

Lemma mbdc_SetDescriptor_frame m p d v :
  provider (mbdc.SetDescriptor m p d v).1 = provider m ∧
  length (caches (mbdc.SetDescriptor m p d v).1) = length (caches m).
Proof.
  destruct (mbdc_SetDescriptor_spec m p d v); simpl; try done.
  by rewrite length_insert.
Qed.

Lemma imbdcp_SetDescriptor_frame m d v :
  provider (imbdcp.SetDescriptor m d v).1 = provider m ∧
  length (caches (imbdcp.SetDescriptor m d v).1) = length (caches m).
Proof.
  destruct (imbdcp_SetDescriptor_cases m d v) as [->|[->|(m' & Hc & ->)]];
    simpl; [done|apply mbdc_SetDescriptor_frame|].
  pose proof (mbdc_SetDescriptor_frame m (global (provider m)) (Digest v) v)
    as [Hp Hl].
  rewrite Hc in Hp, Hl. simpl in *.
  destruct (mbdc_SetDescriptor_frame m' (global (provider m')) d v) as [Hp' Hl'].
  split; congruence.
Qed.

Lemma bind_case m w : bind_spec m w (rsimbdcp.bind m w).
Proof.
  unfold rsimbdcp.bind.
  destruct (repository w) as [p|] eqn:Hw; [by constructor|].
  destruct (repositories (provider m) !! repo w) as [p|] eqn:Ht.
  - by apply bind_adopted.
  - simpl. by apply bind_allocated.
Qed.

(** After [SetDescriptor] on a view, whatever it returns: the table and the
    heap are those of the lazy allocation, up to the contents of maps. *)
Lemma rsimbdcp_SetDescriptor_frame m w d v :
  provider (rsimbdcp.SetDescriptor m w d v).1.1 = provider (rsimbdcp.bind m w).1 ∧
  length (caches (rsimbdcp.SetDescriptor m w d v).1.1)
    = length (caches (rsimbdcp.bind m w).1) ∧
  (rsimbdcp.SetDescriptor m w d v).1.2
    = mkView (repo w) (Some (rsimbdcp.bind m w).2).
Proof.
  unfold rsimbdcp.SetDescriptor.
  destruct (rsimbdcp.bind m w) as [m1 p]; simpl.
  pose proof (mbdc_SetDescriptor_frame m1 p d v) as [Hp Hl].
  destruct (mbdc.SetDescriptor m1 p d v) as [m2 [e|]]; [done|].
  pose proof (imbdcp_SetDescriptor_frame m2 d v) as [Hp' Hl'].
  destruct (imbdcp.SetDescriptor m2 d v) as [m3 e]; simpl in *.
  repeat split; congruence.
Qed.

Lemma pointers_valid_frame m m' :
  provider m' = provider m → length (caches m') = length (caches m) →
  pointers_valid m → pointers_valid m'.
Proof. unfold pointers_valid. by intros -> ->. Qed.

Lemma view_valid_frame m m' w :
  provider m' = provider m → view_valid m w → view_valid m' w.
Proof. unfold view_valid. by intros ->. Qed.

(** The lazy allocation keeps pointers valid, binds the view where the table
    points, and leaves the other repositories and all maps as they were. *)
Lemma bind_valid m w :
  pointers_valid m → view_valid m w →
  pointers_valid (rsimbdcp.bind m w).1 ∧
  repositories (provider (rsimbdcp.bind m w).1) !! repo w
    = Some (rsimbdcp.bind m w).2 ∧
  global (provider (rsimbdcp.bind m w).1) = global (provider m) ∧
  (∀ R, R ≠ repo w →
        repositories (provider (rsimbdcp.bind m w).1) !! R
        = repositories (provider m) !! R) ∧
  (∀ w', view_valid m w' → view_valid (rsimbdcp.bind m w).1 w') ∧
  (∀ q, q < length (caches m) → load (rsimbdcp.bind m w).1 q = load m q).
Proof.
  intros [Hg Ht] Hw.
  destruct (bind_case m w) as [p Hwp|p Hwp Htp|Hwp Htp]; simpl.
  - split_and!; try done. by apply Hw.
  - by split_and!.
  - assert (∀ q, q < length (caches m) → q < length (caches m ++ [∅])) as Hlt
      by (intros q Hq; rewrite length_app; simpl; lia).
    split_and!.
    + split; simpl; [by apply Hlt|]. intros R p.
      destruct (decide (repo w = R)) as [<-|Hne].
      * rewrite lookup_insert_eq. intros [= <-].
        rewrite length_app; simpl; lia.
      * rewrite lookup_insert_ne by done. intros [? ?]%Ht. split; [by apply Hlt|done].
    + by rewrite lookup_insert_eq.
    + done.
    + intros R Hne. by rewrite lookup_insert_ne.
    + intros w' Hw' p Hp. simpl. specialize (Hw' p Hp).
      rewrite lookup_insert_ne; [done|]. congruence.
    + intros q Hq. unfold load; simpl. by rewrite lookup_total_app_l.
Qed.

Lemma exec_well_formed s c : well_formed s → well_formed (exec s c).
Proof.
  intros [Hm Hv]. destruct c as [R|d|d v|i d|i d v]; simpl; try done.
  - unfold imbdcp.RepositoryScoped.
    destruct (ValidateRepositoryName R); [done|].
    split; simpl; [done|].
    intros w [Hw| ->%list_elem_of_singleton]%elem_of_app; [by apply Hv|].
    by intros p.
  - destruct (imbdcp_SetDescriptor_frame (mem s) d v) as [Hp Hl].
    split; simpl.
    + by eapply pointers_valid_frame.
    + intros w Hw. eapply view_valid_frame; [done|by apply Hv].
  - destruct (views s !! i) as [w|] eqn:Hi; [|done].
    destruct (rsimbdcp_SetDescriptor_frame (mem s) w d v) as (Hp & Hl & Hw).
    assert (view_valid (mem s) w) as Hwv
      by (by eapply Hv, list_elem_of_lookup_2).
    destruct (bind_valid (mem s) w Hm Hwv) as (Hm1 & Ht1 & _ & _ & Hv1 & _).
    split; simpl.
    + by eapply pointers_valid_frame.
    + intros w' [->|Hw']%elem_of_insert_inv;
        (eapply view_valid_frame; [done|]); [|by apply Hv1, Hv].
      rewrite Hw. by intros p [= <-].
Qed.

Lemma run_well_formed s cs : well_formed s → well_formed (run s cs).
Proof.
  revert s. induction cs as [|c cs IH]; intros s Hs; [done|].
  simpl. by apply IH, exec_well_formed.
Qed.

Lemma fresh_system_well_formed : well_formed fresh_system.
Proof.
  split; simpl.
  - split; simpl; [lia|]. intros R p. by rewrite lookup_empty.
  - intros w Hw. by apply elem_of_nil in Hw.
Qed.

Lemma reachable_well_formed s : reachable s → well_formed s.
Proof. intros [cs ->]. apply run_well_formed, fresh_system_well_formed. Qed.

Lemma reachable_exec s c : reachable s → reachable (exec s c).
Proof.
  intros [cs ->]. exists (cs ++ [c]). unfold run. by rewrite foldl_app.
Qed.

Lemma reachable_global s :
  reachable s → global (provider (mem s)) < length (caches (mem s)).
Proof. by intros [[] _]%reachable_well_formed. Qed.
End frame.

(** ** The provider's SetDescriptor, outcome by outcome *)

Section global_scope.
Context `{!Collaborators}.

Lemma store_store (m : Memory) (p : ptr) (c c' : gmap digest.Digest Descriptor) :
  store (store m p c) p c' = store m p c'.
Proof. unfold store; simpl. by rewrite list_insert_insert_eq. Qed.

Lemma imbdcp_SetDescriptor_spec m d v :
  global (provider m) < length (caches m) →
  global_set_spec m d v (imbdcp.SetDescriptor m d v).
Proof.
  intros Hg.
  destruct (imbdcp.Stat m d) as [v0|e] eqn:Hs.
  { erewrite imbdcp_SetDescriptor_known by done. by econstructor. }
  destruct (digest_well_formed d) eqn:Hd.
  2:{ rewrite imbdcp_SetDescriptor_invalid by done. by constructor. }
  assert (e = ErrBlobUnknown) as ->.
  { unfold imbdcp.Stat, mbdc.Stat in Hs.
    apply validateDigest_None in Hd. rewrite Hd in Hs.
    destruct (load _ _ !! d); congruence. }
  destruct (Algorithm (Digest v)) as [a'|] eqn:Hav.
  2:{ rewrite imbdcp_SetDescriptor_panics by done. by constructor. }
  assert (is_Some (Algorithm (Digest v))) as Hsome by (by rewrite Hav).
  clear a' Hav.
  destruct (decide (Algorithm d = Algorithm (Digest v))) as [Ha|Ha].
  - rewrite imbdcp_SetDescriptor_same_algorithm by done.
    destruct (mbdc_SetDescriptor_spec m (global (provider m)) d v)
      as [?|? Hv|? Hv]; [congruence|by constructor|].
    unfold returned; simpl.
    replace (<[d:=v]> _) with (first_write d v (load m (global (provider m)))).
    + by constructor.
    + unfold first_write. rewrite bool_decide_eq_false_2; [done|]. by intros [].
  - rewrite imbdcp_SetDescriptor_other_algorithm by done.
    destruct (mbdc_SetDescriptor_spec m (global (provider m)) (Digest v) v)
      as [Hc|Hc Hv|Hc Hv]; [by constructor|by constructor|].
    simpl.
    destruct (mbdc_SetDescriptor_spec
                (store m (global (provider m))
                   (<[Digest v:=v]> (load m (global (provider m)))))
                (global (provider m)) d v)
      as [?|? Hv'|_ _]; [congruence|congruence|].
    unfold returned; simpl.
    rewrite store_store, load_store_eq by done.
    replace (<[d:=v]> _) with (first_write d v (load m (global (provider m)))).
    + by constructor.
    + unfold first_write. by rewrite bool_decide_eq_true_2.
Qed.

Lemma global_set_success m d v m' :
  global (provider m) < length (caches m) →
  imbdcp.Stat m d = Err ErrBlobUnknown →
  imbdcp.SetDescriptor m d v = (m', Returns None) →
  m' = store m (global (provider m))
         (first_write d v (load m (global (provider m)))) ∧
  digest_well_formed d = true ∧ descriptor_well_formed v = true ∧
  is_Some (Algorithm (Digest v)) ∧
  (Algorithm d ≠ Algorithm (Digest v) → digest_well_formed (Digest v) = true).
Proof.
  intros Hg Hs Hset.
  assert (digest_well_formed d = true) as Hd
    by (by apply mbdc_Stat_unknown in Hs as [? _]).
  pose proof (imbdcp_SetDescriptor_spec m d v Hg) as Hspec.
  rewrite Hset in Hspec.
  inversion Hspec as [v0 Hk| | | | |Hu Hsome Hv]; subst; [congruence|].
  split_and!; try done.
  intros Ha. destruct (digest_well_formed (Digest v)) eqn:Hc; [done|].
  rewrite imbdcp_SetDescriptor_other_algorithm in Hset by done.
  destruct (mbdc_SetDescriptor_spec m (global (provider m)) (Digest v) v);
    congruence.
Qed.

Lemma first_write_alias d v c : first_write d v c !! d = Some v.
Proof. unfold first_write. by rewrite lookup_insert_eq. Qed.

Lemma first_write_canonical d v c :
  Algorithm d ≠ Algorithm (Digest v) → first_write d v c !! Digest v = Some v.
Proof.
  intros Ha. unfold first_write. rewrite bool_decide_eq_true_2 by done.
  destruct (decide (d = Digest v)) as [->|Hne].
  - by rewrite lookup_insert_eq.
  - by rewrite lookup_insert_ne, lookup_insert_eq.
Qed.
End global_scope.

(** ** Claims about the global scope *)

Section global_claims.
Context `{!Collaborators}.

Lemma imbdcp_Stat_after_store m d v c :
  global (provider m) < length (caches m) →
  digest_well_formed d = true → c !! d = Some v →
  imbdcp.Stat (store m (global (provider m)) c) d = Ok v.
Proof. intros. unfold imbdcp.Stat; simpl. by apply mbdc_Stat_store_eq. Qed.

Lemma imbdcp_Stat_first_write_other m d v k :
  global (provider m) < length (caches m) →
  k ≠ d → Algorithm d = Algorithm (Digest v) →
  imbdcp.Stat
    (store m (global (provider m))
       (first_write d v (load m (global (provider m))))) k
  = imbdcp.Stat m k.
Proof.
  intros Hg Hk Ha. unfold imbdcp.Stat, mbdc.Stat; simpl.
  rewrite load_store_eq by done. unfold first_write.
  rewrite bool_decide_eq_false_2 by (by intros []).
  by rewrite lookup_insert_ne.
Qed.

Lemma imbdcp_first_write_read m D V m' :
  global (provider m) < length (caches m) →
  imbdcp.Stat m D = Err ErrBlobUnknown →
  imbdcp.SetDescriptor m D V = (m', Returns None) →
  imbdcp.Stat m' D = Ok V ∧
  (Algorithm D ≠ Algorithm (Digest V) → imbdcp.Stat m' (Digest V) = Ok V) ∧
  (Algorithm D = Algorithm (Digest V) → Digest V ≠ D →
   imbdcp.Stat m' (Digest V) = imbdcp.Stat m (Digest V)).
Proof.
  intros Hg Hs Hset.
  destruct (global_set_success _ _ _ _ Hg Hs Hset) as (-> & Hd & Hv & Hc).
  split; [|split].
  - apply imbdcp_Stat_after_store; [done..|apply first_write_alias].
  - intros Ha. apply imbdcp_Stat_after_store; [done|by apply Hc|].
    by apply first_write_canonical.
  - intros Ha Hne. by apply imbdcp_Stat_first_write_other.
Qed.

(** C1 (amended).  On a reachable state whose global cache does not know D, a
    successful set(global, D, V) makes stat(global, D) return V.  The
    canonical entry under C = V.digest is written as well, and
    stat(global, C) returns V, when D and C differ in algorithm; when they
    have the same algorithm and differ in value, the entry under C is left as
    it was. *)
Theorem C1_canonical_alias_by_algorithm s D V m' :
  reachable s →
  imbdcp.Stat (mem s) D = Err ErrBlobUnknown →
  imbdcp.SetDescriptor (mem s) D V = (m', Returns None) →
  imbdcp.Stat m' D = Ok V ∧
  (Algorithm D ≠ Algorithm (Digest V) → imbdcp.Stat m' (Digest V) = Ok V) ∧
  (Algorithm D = Algorithm (Digest V) → Digest V ≠ D →
   imbdcp.Stat m' (Digest V) = imbdcp.Stat (mem s) (Digest V)).
Proof.
  intros Hg%reachable_global Hs Hset. by apply imbdcp_first_write_read.
Qed.

(** C7 (amended).  A successful set(global, D, V) on a reachable state is
    followed by stat(global, D) returning V when D was unknown to the global
    cache before the call; when D was already known the call succeeds without
    storing anything and stat(global, D) keeps returning the descriptor that
    was there. *)
Theorem C7_set_then_stat s D V m' :
  reachable s →
  imbdcp.SetDescriptor (mem s) D V = (m', Returns None) →
  (imbdcp.Stat (mem s) D = Err ErrBlobUnknown → imbdcp.Stat m' D = Ok V) ∧
  (∀ V0, imbdcp.Stat (mem s) D = Ok V0 →
         m' = mem s ∧ imbdcp.Stat m' D = Ok V0).
Proof.
  intros Hr Hset. split.
  - intros Hs. apply reachable_global in Hr.
    by destruct (imbdcp_first_write_read _ _ _ _ Hr Hs Hset) as [? _].
  - intros V0 Hs. erewrite imbdcp_SetDescriptor_known in Hset by done.
    by injection Hset as <-.
Qed.

End global_claims.

(** ** SetDescriptor on a view, outcome by outcome *)

Section scoped.
Context `{!Collaborators}.

(** The leaf cache refuses the write: the lazy allocation has happened, the
    maps are untouched and the provider's [SetDescriptor] is not called. *)
Lemma rsimbdcp_SetDescriptor_rejected m w d v :
  digest_well_formed d = false ∨ descriptor_well_formed v = false →
  rsimbdcp.SetDescriptor m w d v =
    ((rsimbdcp.bind m w).1, mkView (repo w) (Some (rsimbdcp.bind m w).2),
     Returns (Some (if digest_well_formed d then ErrInvalidDescriptor
                    else ErrInvalidDigest))).
Proof.
  intros Hbad. unfold rsimbdcp.SetDescriptor.
  destruct (rsimbdcp.bind m w) as [m1 p]; simpl.
  destruct (mbdc_SetDescriptor_spec m1 p d v) as [Hd|Hd Hv|Hd Hv];
    rewrite Hd; try done.
  destruct Hbad; congruence.
Qed.

(** The leaf cache takes the write, and the provider's [SetDescriptor] runs on
    the memory that holds it. *)
Lemma rsimbdcp_SetDescriptor_accepted m w d v :
  digest_well_formed d = true → descriptor_well_formed v = true →
  rsimbdcp.SetDescriptor m w d v =
    let m2 := store (rsimbdcp.bind m w).1 (rsimbdcp.bind m w).2
                (<[d := v]> (load (rsimbdcp.bind m w).1 (rsimbdcp.bind m w).2)) in
    ((imbdcp.SetDescriptor m2 d v).1,
     mkView (repo w) (Some (rsimbdcp.bind m w).2),
     (imbdcp.SetDescriptor m2 d v).2).
Proof.
  intros Hd Hv. unfold rsimbdcp.SetDescriptor.
  destruct (rsimbdcp.bind m w) as [m1 p]; simpl.
  destruct (mbdc_SetDescriptor_spec m1 p d v) as [Hd'|Hd' Hv'|_ _];
    [congruence|congruence|].
  by destruct (imbdcp.SetDescriptor _ d v).
Qed.

Lemma rsimbdcp_SetDescriptor_success_valid m w d v m' w' :
  rsimbdcp.SetDescriptor m w d v = (m', w', Returns None) →
  digest_well_formed d = true ∧ descriptor_well_formed v = true.
Proof.
  intros Hset.
  destruct (digest_well_formed d) eqn:Hd, (descriptor_well_formed v) eqn:Hv;
    try done; rewrite rsimbdcp_SetDescriptor_rejected in Hset by auto;
    congruence.
Qed.

(** The provider's [SetDescriptor] only touches the global map. *)
Lemma imbdcp_SetDescriptor_load_other m d v q :
  global (provider m) < length (caches m) →
  q ≠ global (provider m) →
  load (imbdcp.SetDescriptor m d v).1 q = load m q.
Proof.
  intros Hg Hq.
  destruct (imbdcp_SetDescriptor_spec m d v Hg); simpl; try done.
  by rewrite load_store_ne.
Qed.

Lemma imbdcp_Stat_store_other m p c d :
  p ≠ global (provider m) →
  imbdcp.Stat (store m p c) d = imbdcp.Stat m d.
Proof.
  intros Hp. unfold imbdcp.Stat, mbdc.Stat; simpl.
  by rewrite load_store_ne.
Qed.

(** A successful write through a valid view: the view's map holds the pair,
    and the provider's [SetDescriptor] ran on a memory whose global map was
    not touched by the write to the view's map. *)
Lemma rsimbdcp_SetDescriptor_success m w d v m' w' :
  pointers_valid m → view_valid m w →
  rsimbdcp.SetDescriptor m w d v = (m', w', Returns None) →
  ∃ m2 p,
    w' = mkView (repo w) (Some p) ∧
    rsimbdcp.bind m w = ((rsimbdcp.bind m w).1, p) ∧
    p ≠ global (provider m) ∧
    global (provider m2) = global (provider m) ∧
    global (provider m2) < length (caches m2) ∧
    imbdcp.SetDescriptor m2 d v = (m', Returns None) ∧
    (∀ k, imbdcp.Stat m2 k = imbdcp.Stat m k) ∧
    provider m2 = provider (rsimbdcp.bind m w).1 ∧
    load m' p !! d = Some v.
Proof.
  intros Hm Hw Hset.
  destruct (rsimbdcp_SetDescriptor_success_valid _ _ _ _ _ _ Hset) as [Hd Hv].
  rewrite rsimbdcp_SetDescriptor_accepted in Hset by done.
  destruct (bind_valid m w Hm Hw) as ([Hg1 Ht1] & Hp & Hgeq & _ & _ & Hload).
  destruct (rsimbdcp.bind m w) as [m1 p] eqn:Hb; simpl in *.
  destruct (Ht1 _ _ Hp) as [Hplt Hpg].
  set (m2 := store m1 p (<[d:=v]> (load m1 p))) in *.
  injection Hset as Hm' Hw' He. exists m2, p.
  assert (global (provider m2) < length (caches m2)) as Hg2
    by (unfold m2, store; simpl; by rewrite length_insert).
  split_and!; try done.
  - congruence.
  - by destruct (imbdcp.SetDescriptor m2 d v); simpl in *; subst.
  - intros k. unfold m2. rewrite imbdcp_Stat_store_other by done.
    unfold imbdcp.Stat, mbdc.Stat. rewrite Hgeq, Hload; [done|].
    by destruct Hm.
  - subst m'. rewrite imbdcp_SetDescriptor_load_other by done.
    unfold m2. rewrite load_store_eq by done. by rewrite lookup_insert_eq.
Qed.
End scoped.

(** ** Claims about repository scoped views *)

Section scoped_claims.
Context `{!Collaborators}.

Lemma RepositoryScoped_Ok m R w :
  imbdcp.RepositoryScoped m R = Ok w ↔
  repository_name_well_formed R = true ∧
  w = mkView R (repositories (provider m) !! R).
Proof.
  unfold imbdcp.RepositoryScoped, ValidateRepositoryName.
  destruct (repository_name_well_formed R); [|intuition congruence].
  split; [by intros [= <-]|by intros [_ ->]].
Qed.

Lemma RepositoryScoped_valid m R w :
  imbdcp.RepositoryScoped m R = Ok w → view_valid m w ∧ repo w = R.
Proof. intros [_ ->]%RepositoryScoped_Ok. split; [by intros p|done]. Qed.

(** C5.  On a reachable state, let Vw be the view handed out for R, and let D
    be unknown to the global cache.  When Vw.set(D, V) succeeds, Vw.stat(D)
    and stat(global, D) both return V, while the view of any other
    repository R2 that has no leaf cache answers stat(D) with BlobUnknown. *)
Theorem C5_repository_isolation s R w D V m' w' :
  reachable s →
  imbdcp.RepositoryScoped (mem s) R = Ok w →
  imbdcp.Stat (mem s) D = Err ErrBlobUnknown →
  rsimbdcp.SetDescriptor (mem s) w D V = (m', w', Returns None) →
  rsimbdcp.Stat m' w' D = Ok V ∧
  imbdcp.Stat m' D = Ok V ∧
  ∀ R2, R2 ≠ R → ¬ Bound (mem s) R2 →
        repository_name_well_formed R2 = true →
        ∃ w2, imbdcp.RepositoryScoped m' R2 = Ok w2 ∧
              rsimbdcp.Stat m' w2 D = Err ErrBlobUnknown.
Proof.
  intros [Hm _]%reachable_well_formed [Hw HR]%RepositoryScoped_valid Hs Hset.
  destruct (rsimbdcp_SetDescriptor_success _ _ _ _ _ _ Hm Hw Hset)
    as (m2 & p & -> & Hb & Hpg & Hgeq & Hg2 & Hglob & Hstat & Hprov & Hload).
  assert (digest_well_formed D = true) as Hd
    by (by apply mbdc_Stat_unknown in Hs as [? _]).
  split_and!.
  - unfold rsimbdcp.Stat; simpl. by apply mbdc_Stat_Ok.
  - rewrite <- Hstat in Hs.
    by destruct (imbdcp_first_write_read _ _ _ _ Hg2 Hs Hglob) as [? _].
  - intros R2 Hne Hunbound Hname.
    exists (mkView R2 (repositories (provider m') !! R2)).
    split; [by apply RepositoryScoped_Ok|].
    assert (repositories (provider m') !! R2 = None) as ->; [|done].
    pose proof (imbdcp_SetDescriptor_frame m2 D V) as [Hp' _].
    rewrite Hglob in Hp'; simpl in Hp'. rewrite Hp', Hprov.
    destruct (bind_valid (mem s) w Hm Hw) as (_ & _ & _ & Hother & _).
    rewrite Hother by congruence.
    destruct (repositories (provider (mem s)) !! R2) eqn:Ht; [|done].
    destruct Hunbound. by eexists.
Qed.

(** C10.  On a new provider, take the view w of any repository and a well
    formed digest D with two well formed descriptors V1 and V2 whose digest
    is D.  w.SetDescriptor(D, V1) and then w.SetDescriptor(D, V2) both
    succeed; afterwards w.Stat(D) returns V2, the last one written, while
    stat(global, D) returns V1, the first one. *)
Theorem C10_scopes_disagree R w D V1 V2 :
  imbdcp.RepositoryScoped NewInMemoryBlobDescriptorCacheProvider R = Ok w →
  digest_well_formed D = true →
  descriptor_well_formed V1 = true → descriptor_well_formed V2 = true →
  Digest V1 = D → Digest V2 = D →
  ∃ m1 w1 m2 w2,
    rsimbdcp.SetDescriptor NewInMemoryBlobDescriptorCacheProvider w D V1
      = (m1, w1, Returns None) ∧
    rsimbdcp.SetDescriptor m1 w1 D V2 = (m2, w2, Returns None) ∧
    rsimbdcp.Stat m2 w2 D = Ok V2 ∧
    imbdcp.Stat m2 D = Ok V1.
Proof.
  intros [_ ->]%RepositoryScoped_Ok Hd Hv1 Hv2 HD1 HD2.
  assert (validateDigest D = None) as HvD by (by apply validateDigest_None).
  assert (validateDescriptor V1 = None) as HvV1
    by (by apply validateDescriptor_None).
  assert (validateDescriptor V2 = None) as HvV2
    by (by apply validateDescriptor_None).
  simpl. rewrite lookup_empty.
  set (prov := mkProvider 0 (<[R := 1]> ∅)).
  exists (mkMemory [<[D := V1]> ∅; <[D := V1]> ∅] prov), (mkView R (Some 1)),
         (mkMemory [<[D := V1]> ∅; <[D := V2]> (<[D := V1]> ∅)] prov),
         (mkView R (Some 1)).
  split_and!.
  - rewrite rsimbdcp_SetDescriptor_accepted by done.
    unfold rsimbdcp.bind; simpl. rewrite lookup_empty; simpl.
    rewrite imbdcp_SetDescriptor_same_algorithm.
    + unfold returned, mbdc.SetDescriptor; simpl. by rewrite HvD, HvV1.
    + unfold imbdcp.Stat, mbdc.Stat, load; simpl.
      by rewrite HvD, lookup_empty.
    + by rewrite HD1.
  - rewrite rsimbdcp_SetDescriptor_accepted by done.
    unfold rsimbdcp.bind; simpl.
    unfold imbdcp.SetDescriptor, imbdcp.Stat, mbdc.Stat; simpl.
    rewrite HvD. unfold load; simpl. rewrite lookup_insert_eq. reflexivity.
  - unfold rsimbdcp.Stat, mbdc.Stat, load; simpl.
    by rewrite HvD, lookup_insert_eq.
  - unfold imbdcp.Stat, mbdc.Stat, load; simpl.
    by rewrite HvD, lookup_insert_eq.
Qed.
End scoped_claims.

(** ** How calls change the repository table and the views *)

Section table.
Context `{!Collaborators}.

Lemma bind_table_mono m w R p :
  repositories (provider m) !! R = Some p →
  repositories (provider (rsimbdcp.bind m w).1) !! R = Some p.
Proof.
  intros Hp. destruct (bind_case m w) as [q Hwq|q Hwq Htq|Hwq Htq]; simpl;
    try done.
  rewrite lookup_insert_ne; [done|]. congruence.
Qed.

Lemma bind_table_other m w R :
  R ≠ repo w →
  repositories (provider (rsimbdcp.bind m w).1) !! R
  = repositories (provider m) !! R.
Proof.
  intros Hne. destruct (bind_case m w) as [q Hwq|q Hwq Htq|Hwq Htq]; simpl;
    try done.
  by rewrite lookup_insert_ne.
Qed.

Lemma exec_table_mono s c R p :
  repositories (provider (mem s)) !! R = Some p →
  repositories (provider (mem (exec s c))) !! R = Some p.
Proof.
  intros Hp. destruct c as [R'|d|d v|i d|i d v]; simpl; try done.
  - by destruct (imbdcp.RepositoryScoped (mem s) R').
  - by destruct (imbdcp_SetDescriptor_frame (mem s) d v) as [-> _].
  - destruct (views s !! i) as [w|]; [|done]. simpl.
    destruct (rsimbdcp_SetDescriptor_frame (mem s) w d v) as (-> & _ & _).
    by apply bind_table_mono.
Qed.

Lemma exec_table_other s c R :
  written_repository s c ≠ Some R →
  repositories (provider (mem (exec s c))) !! R
  = repositories (provider (mem s)) !! R.
Proof.
  intros Hw. destruct c as [R'|d|d v|i d|i d v]; simpl in *; try done.
  - by destruct (imbdcp.RepositoryScoped (mem s) R').
  - by destruct (imbdcp_SetDescriptor_frame (mem s) d v) as [-> _].
  - destruct (views s !! i) as [w|]; [|done]. simpl in *.
    destruct (rsimbdcp_SetDescriptor_frame (mem s) w d v) as (-> & _ & _).
    apply bind_table_other. congruence.
Qed.

Lemma exec_view_written s i w d v :
  well_formed s → views s !! i = Some w →
  ∃ p, views (exec s (CallViewSetDescriptor i d v)) !! i
         = Some (mkView (repo w) (Some p)) ∧
       repositories (provider (mem (exec s (CallViewSetDescriptor i d v))))
         !! repo w = Some p ∧
       (∀ q, repository w = Some q → p = q).
Proof.
  intros [Hm Hv] Hi. simpl. rewrite Hi; simpl.
  destruct (rsimbdcp_SetDescriptor_frame (mem s) w d v) as (-> & _ & ->).
  assert (view_valid (mem s) w) as Hw by (by eapply Hv, list_elem_of_lookup_2).
  destruct (bind_valid (mem s) w Hm Hw) as (_ & Ht & _).
  exists (rsimbdcp.bind (mem s) w).2. split_and!; [|done|].
  - apply list_lookup_insert_eq. by eapply lookup_lt_Some.
  - intros q Hq. unfold rsimbdcp.bind. by rewrite Hq.
Qed.

Lemma exec_view_kept s c i w :
  views s !! i = Some w →
  (∀ d v, c ≠ CallViewSetDescriptor i d v) →
  views (exec s c) !! i = Some w.
Proof.
  intros Hi Hc. destruct c as [R'|d|d v|j d|j d v]; simpl; try done.
  - destruct (imbdcp.RepositoryScoped (mem s) R'); [|done]. simpl.
    by apply lookup_app_l_Some.
  - destruct (views s !! j) as [w'|] eqn:Hj; [|done]. simpl.
    rewrite list_lookup_insert_ne; [done|]. intros ->. by eapply Hc.
Qed.

Lemma run_never_written R s cs :
  never_written R s cs →
  repositories (provider (mem (run s cs))) !! R
  = repositories (provider (mem s)) !! R.
Proof.
  revert s. induction cs as [|c cs IH]; intros s Hn; [done|].
  destruct Hn as [Hc Hn]. simpl. rewrite IH by done.
  by apply exec_table_other.
Qed.

Lemma run_view_idle i w s cs :
  views s !! i = Some w → view_idle i cs →
  views (run s cs) !! i = Some w.
Proof.
  revert s. induction cs as [|c cs IH]; intros s Hi Hidle; [done|].
  simpl. apply IH.
  - apply exec_view_kept; [done|]. intros d v ->.
    eapply Hidle. by left.
  - intros d v Hin. eapply Hidle. by right.
Qed.

(** C2 (amended).  The backing slot of repository R goes from Unbound to
    Bound at the first SetDescriptor call made through a view of R, whether
    that call succeeds or is refused by validation: the allocation comes
    before the validation.  No other call binds the slot, and neither the
    table's slot nor a view's own pointer ever goes back to Unbound. *)
Theorem C2_bound_at_first_SetDescriptor s c R :
  reachable s →
  (Bound (mem s) R → Bound (mem (exec s c)) R) ∧
  (¬ Bound (mem s) R → Bound (mem (exec s c)) R →
   written_repository s c = Some R) ∧
  (∀ i w d v, c = CallViewSetDescriptor i d v → views s !! i = Some w →
     ∃ p, views (exec s c) !! i = Some (mkView (repo w) (Some p)) ∧
          repositories (provider (mem (exec s c))) !! repo w = Some p) ∧
  (∀ i w p, views s !! i = Some w → repository w = Some p →
     ∃ w', views (exec s c) !! i = Some w' ∧
           repo w' = repo w ∧ repository w' = Some p).
Proof.
  intros Hwf%reachable_well_formed. split_and!.
  - intros [p Hp]. exists p. by apply exec_table_mono.
  - intros Hu Hb.
    destruct (decide (written_repository s c = Some R)) as [|Hne]; [done|].
    destruct Hu. unfold Bound in *. by rewrite exec_table_other in Hb.
  - intros i w d v -> Hi.
    destruct (exec_view_written s i w d v Hwf Hi) as (p & ? & ? & _).
    by exists p.
  - intros i w p Hi Hp.
    assert ((∃ d v, c = CallViewSetDescriptor i d v) ∨
            (∀ d v, c ≠ CallViewSetDescriptor i d v)) as [(d & v & ->)|Hc].
    { destruct c as [| | | |j d v]; try (by right).
      destruct (decide (j = i)) as [->|Hne]; [left; by exists d, v|].
      right. intros ? ? [= ? ? ?]. done. }
    + destruct (exec_view_written s i w d v Hwf Hi) as (q & Hq & _ & Heq).
      exists (mkView (repo w) (Some q)). rewrite (Heq p Hp) in *. done.
    + exists w. split; [|done]. by apply exec_view_kept.
Qed.
End table.

(** ** Views of repositories that were never written, and stale views *)

Section unbound_claims.
Context `{!Collaborators}.

(** C8.  After any sequence of calls on a new provider of which none is a
    SetDescriptor through a view of R, and for a well formed name R:
    RepositoryScoped(R) returns a view and no error, it leaves the memory
    (heap and repository table) as it was, the view is unbound, and its
    Stat(D) fails with BlobUnknown for every digest D. *)
Theorem C8_read_before_write cs R D :
  never_written R fresh_system cs →
  repository_name_well_formed R = true →
  ∃ w, imbdcp.RepositoryScoped (mem (run fresh_system cs)) R = Ok w ∧
       mem (exec (run fresh_system cs) (CallRepositoryScoped R))
         = mem (run fresh_system cs) ∧
       repository w = None ∧
       rsimbdcp.Stat (mem (run fresh_system cs)) w D = Err ErrBlobUnknown.
Proof.
  intros Hn HR.
  pose proof (run_never_written R fresh_system cs Hn) as Ht.
  simpl in Ht. rewrite lookup_empty in Ht.
  exists (mkView R None). split_and!; try done.
  - apply RepositoryScoped_Ok. by rewrite Ht.
  - simpl. by destruct (imbdcp.RepositoryScoped _ R).
Qed.

(** C9.  A view w handed out for R while R had no entry in the table keeps
    its nil pointer through every later sequence of calls in which w itself
    does no SetDescriptor: w.Stat(D) returns BlobUnknown for every D, also
    when other views have bound and filled R's leaf cache in between.  If
    the table then has an entry for R, a SetDescriptor through w allocates
    nothing and leaves w pointing to that entry. *)
Theorem C9_view_captures_pointer s0 R w cs D :
  ¬ Bound (mem s0) R →
  imbdcp.RepositoryScoped (mem s0) R = Ok w →
  view_idle (length (views s0)) cs →
  views (run (exec s0 (CallRepositoryScoped R)) cs) !! length (views s0)
    = Some w ∧
  rsimbdcp.Stat (mem (run (exec s0 (CallRepositoryScoped R)) cs)) w D
    = Err ErrBlobUnknown ∧
  ∀ p V,
    repositories (provider (mem (run (exec s0 (CallRepositoryScoped R)) cs)))
      !! R = Some p →
    rsimbdcp.bind (mem (run (exec s0 (CallRepositoryScoped R)) cs)) w
      = (mem (run (exec s0 (CallRepositoryScoped R)) cs), p) ∧
    (rsimbdcp.SetDescriptor
       (mem (run (exec s0 (CallRepositoryScoped R)) cs)) w D V).1.2
      = mkView R (Some p).
Proof.
  intros Hu Hw Hidle.
  assert (w = mkView R None) as ->.
  { apply RepositoryScoped_Ok in Hw as [_ ->].
    destruct (repositories (provider (mem s0)) !! R) eqn:Ht; [|done].
    destruct Hu. by eexists. }
  set (s := run _ cs). split_and!; [|done|].
  - apply run_view_idle; [|done]. simpl. rewrite Hw; simpl.
    by apply list_lookup_middle.
  - intros p V Hp.
    assert (rsimbdcp.bind (mem s) (mkView R None) = (mem s, p)) as Hb
      by (unfold rsimbdcp.bind; simpl; by rewrite Hp).
    split; [done|].
    destruct (rsimbdcp_SetDescriptor_frame (mem s) (mkView R None) D V)
      as (_ & _ & ->).
    by rewrite Hb.
Qed.
End unbound_claims.

(** ** Refused input *)

Section refused.
Context `{!Collaborators}.

Lemma bind_bound m w :
  is_Some (repository w) ∨ Bound m (repo w) → (rsimbdcp.bind m w).1 = m.
Proof.
  intros Hb. destruct (bind_case m w) as [q Hwq|q Hwq Htq|Hwq Htq]; try done.
  destruct Hb as [[? ?]|[? ?]]; congruence.
Qed.

Lemma bind_load m w q :
  q < length (caches m) → load (rsimbdcp.bind m w).1 q = load m q.
Proof.
  intros Hq. destruct (bind_case m w) as [?|?|Hwq Htq]; try done.
  unfold load; simpl. by rewrite lookup_total_app_l.
Qed.



End refused.

(** ** The leaf cache invariant *)

Section invariant.
Context `{!Collaborators}.

Lemma leaf_invariant_empty : leaf_invariant ∅.
Proof. intros k v. by rewrite lookup_empty. Qed.

Lemma leaf_invariant_insert c d v :
  leaf_invariant c → same_algorithm_agrees d v → leaf_invariant (<[d := v]> c).
Proof.
  intros Hc Hdv k v'. destruct (decide (d = k)) as [<-|Hne].
  - rewrite lookup_insert_eq. by intros [= <-].
  - rewrite lookup_insert_ne by done. apply Hc.
Qed.

Lemma heap_invariant_load m p : heap_invariant m → leaf_invariant (load m p).
Proof.
  intros Hm. unfold load.
  destruct (caches m !! p) as [c|] eqn:Hp.
  - rewrite (list_lookup_total_correct _ _ _ Hp).
    eapply (Forall_lookup_1 leaf_invariant); [apply Hm|apply Hp].
  - rewrite list_lookup_total_alt, Hp. apply leaf_invariant_empty.
Qed.

Lemma heap_invariant_store m p c :
  heap_invariant m → leaf_invariant c → heap_invariant (store m p c).
Proof. intros Hm Hc. by apply Forall_insert. Qed.

Lemma mbdc_SetDescriptor_invariant m p d v :
  heap_invariant m → same_algorithm_agrees d v →
  heap_invariant (mbdc.SetDescriptor m p d v).1.
Proof.
  intros Hm Hdv. destruct (mbdc_SetDescriptor_spec m p d v); simpl; try done.
  apply heap_invariant_store; [done|].
  apply leaf_invariant_insert; [|done]. by apply heap_invariant_load.
Qed.

Lemma imbdcp_SetDescriptor_invariant m d v :
  heap_invariant m → same_algorithm_agrees d v →
  heap_invariant (imbdcp.SetDescriptor m d v).1.
Proof.
  intros Hm Hdv.
  destruct (imbdcp_SetDescriptor_cases m d v) as [->|[->|(m' & Hc & ->)]];
    simpl; [done|by apply mbdc_SetDescriptor_invariant|].
  pose proof (mbdc_SetDescriptor_invariant m (global (provider m)) (Digest v) v
                Hm (λ _, eq_refl)) as Hm'.
  rewrite Hc in Hm'. by apply mbdc_SetDescriptor_invariant.
Qed.

Lemma bind_invariant m w :
  heap_invariant m → heap_invariant (rsimbdcp.bind m w).1.
Proof.
  intros Hm. destruct (bind_case m w); try done.
  apply Forall_app. split; [done|].
  apply Forall_singleton, leaf_invariant_empty.
Qed.

Lemma rsimbdcp_SetDescriptor_invariant m w d v :
  heap_invariant m → same_algorithm_agrees d v →
  heap_invariant (rsimbdcp.SetDescriptor m w d v).1.1.
Proof.
  intros Hm Hdv. unfold rsimbdcp.SetDescriptor.
  pose proof (bind_invariant m w Hm) as Hm1.
  destruct (rsimbdcp.bind m w) as [m1 p]; simpl in *.
  pose proof (mbdc_SetDescriptor_invariant m1 p d v Hm1 Hdv) as Hm2.
  destruct (mbdc.SetDescriptor m1 p d v) as [m2 [e|]]; [done|].
  pose proof (imbdcp_SetDescriptor_invariant m2 d v Hm2 Hdv) as Hm3.
  by destruct (imbdcp.SetDescriptor m2 d v).
Qed.

Lemma exec_invariant s c :
  heap_invariant (mem s) → call_agrees c → heap_invariant (mem (exec s c)).
Proof.
  intros Hm Hc. destruct c as [R|d|d v|i d|i d v]; simpl; try done.
  - by destruct (imbdcp.RepositoryScoped (mem s) R).
  - by apply imbdcp_SetDescriptor_invariant.
  - destruct (views s !! i); [|done]. simpl.
    by apply rsimbdcp_SetDescriptor_invariant.
Qed.

Lemma run_invariant s cs :
  heap_invariant (mem s) → Forall call_agrees cs →
  heap_invariant (mem (run s cs)).
Proof.
  revert s. induction cs as [|c cs IH]; intros s Hm Hcs; [done|].
  apply Forall_cons in Hcs as [Hc Hcs]. simpl.
  apply IH; [|done]. by apply exec_invariant.
Qed.

(** C4 (amended).  The leaf caches do not check that a descriptor's digest
    matches the key it is stored under.  The invariant (a stored descriptor
    whose digest has the algorithm of its key has that key as digest) holds
    of the global leaf cache and of every repository's leaf cache after any
    sequence of calls in which every SetDescriptor is given a digest and a
    descriptor that satisfy it themselves. *)
Theorem C4_invariant_for_agreeing_writes cs :
  Forall call_agrees cs →
  leaf_invariant
    (load (mem (run fresh_system cs))
       (global (provider (mem (run fresh_system cs))))) ∧
  ∀ R p, repositories (provider (mem (run fresh_system cs))) !! R = Some p →
         leaf_invariant (load (mem (run fresh_system cs)) p).
Proof.
  intros Hcs.
  assert (heap_invariant (mem (run fresh_system cs))) as Hm.
  { apply run_invariant; [|done].
    apply Forall_singleton, leaf_invariant_empty. }
  split; [|intros R p _]; by apply heap_invariant_load.
Qed.
End invariant.

(** * Further properties of the code *)

(** ** The leaf cache as a map *)

Section leaf_map.
Context `{!Collaborators}.

Lemma mbdc_SetDescriptor_stored m p d v :
  digest_well_formed d = true → descriptor_well_formed v = true →
  mbdc.SetDescriptor m p d v = (store m p (<[d := v]> (load m p)), None).
Proof.
  intros Hd Hv.
  destruct (mbdc_SetDescriptor_spec m p d v); congruence.
Qed.

Lemma mbdc_Stat_store_ne m p c q k :
  p ≠ q → mbdc.Stat (store m p c) q k = mbdc.Stat m q k.
Proof. intros Hpq. unfold mbdc.Stat. by rewrite load_store_ne. Qed.

Lemma mbdc_Stat_store_insert_ne m p d v k :
  p < length (caches m) → k ≠ d →
  mbdc.Stat (store m p (<[d := v]> (load m p))) p k = mbdc.Stat m p k.
Proof.
  intros Hp Hk. unfold mbdc.Stat.
  by rewrite load_store_eq, lookup_insert_ne.
Qed.

(** X1.  The leaf cache's SetDescriptor overwrites: after two accepted writes
    under one digest, Stat returns the descriptor written last.  The write
    changes the answer of Stat for no other digest of that leaf cache and for
    no digest of any other leaf cache. *)
Theorem X1_leaf_last_write_wins m p d v1 v2 :
  p < length (caches m) →
  digest_well_formed d = true →
  descriptor_well_formed v1 = true → descriptor_well_formed v2 = true →
  mbdc.Stat (mbdc.SetDescriptor m p d v1).1 p d = Ok v1 ∧
  mbdc.Stat (mbdc.SetDescriptor (mbdc.SetDescriptor m p d v1).1 p d v2).1 p d
    = Ok v2 ∧
  (∀ k, k ≠ d →
        mbdc.Stat (mbdc.SetDescriptor m p d v1).1 p k = mbdc.Stat m p k) ∧
  (∀ q k, q ≠ p →
          mbdc.Stat (mbdc.SetDescriptor m p d v1).1 q k = mbdc.Stat m q k).
Proof.
  intros Hp Hd Hv1 Hv2. rewrite !mbdc_SetDescriptor_stored by done. simpl.
  assert (p < length (caches (store m p (<[d:=v1]> (load m p))))) as Hp'
    by (unfold store; simpl; by rewrite length_insert).
  split_and!.
  - apply mbdc_Stat_store_eq; [done..|by rewrite lookup_insert_eq].
  - apply mbdc_Stat_store_eq; [done..|by rewrite lookup_insert_eq].
  - intros k Hk. by apply mbdc_Stat_store_insert_ne.
  - intros q k Hq. apply mbdc_Stat_store_ne. congruence.
Qed.
End leaf_map.

(** ** When the provider's SetDescriptor succeeds, and what a failure leaves *)

Section provider_outcomes.
Context `{!Collaborators}.

Lemma imbdcp_Stat_Err m D e :
  imbdcp.Stat m D = Err e →
  (e = ErrBlobUnknown ∧ digest_well_formed D = true) ∨
  (e = ErrInvalidDigest ∧ digest_well_formed D = false).
Proof.
  unfold imbdcp.Stat, mbdc.Stat, validateDigest.
  destruct (digest_well_formed D); [|intros [= <-]; by right].
  destruct (load _ _ !! D); [done|]. intros [= <-]. by left.
Qed.

(** X2.  The provider's SetDescriptor is all or nothing: whenever it does
    not return success, because it returns an error or because it panics,
    the memory is the one it was called on (no canonical entry is left
    behind without its alias); and an error it returns is InvalidDigest or
    InvalidDescriptor, never BlobUnknown. *)
Theorem X2_provider_failure_writes_nothing s D V :
  reachable s →
  (imbdcp.SetDescriptor (mem s) D V).2 ≠ Returns None →
  (imbdcp.SetDescriptor (mem s) D V).1 = mem s ∧
  (∀ e, (imbdcp.SetDescriptor (mem s) D V).2 = Returns (Some e) →
        e = ErrInvalidDigest ∨ e = ErrInvalidDescriptor).
Proof.
  intros Hg%reachable_global Hne.
  destruct (imbdcp_SetDescriptor_spec (mem s) D V Hg); simpl in *;
    try done; (split; [done|]); intros e [= <-]; auto.
Qed.

Lemma imbdcp_SetDescriptor_success_iff m D V :
  global (provider m) < length (caches m) →
  (imbdcp.SetDescriptor m D V).2 = Returns None ↔
  (∃ V0, imbdcp.Stat m D = Ok V0) ∨
  (imbdcp.Stat m D = Err ErrBlobUnknown ∧
   descriptor_well_formed V = true ∧
   (Algorithm D ≠ Algorithm (Digest V) →
    digest_well_formed (Digest V) = true)).
Proof.
  intros Hg. split.
  - intros Hnone.
    destruct (imbdcp.Stat m D) as [V0|e] eqn:Hs; [left; by exists V0|].
    right.
    destruct (imbdcp_Stat_Err _ _ _ Hs) as [[-> Hd]|[-> Hd]].
    + destruct (imbdcp.SetDescriptor m D V) as [m' o] eqn:Hset.
      simpl in Hnone; subst o.
      by destruct (global_set_success _ _ _ _ Hg Hs Hset)
        as (_ & _ & ? & _ & ?).
    + by rewrite imbdcp_SetDescriptor_invalid in Hnone.
  - intros [[V0 Hs]|(Hs & Hv & Hc)].
    + by erewrite imbdcp_SetDescriptor_known.
    + assert (digest_well_formed D = true) as Hd
        by (by apply mbdc_Stat_unknown in Hs as [? _]).
      destruct (decide (Algorithm D = Algorithm (Digest V))) as [Ha|Ha].
      * rewrite imbdcp_SetDescriptor_same_algorithm by done.
        by rewrite mbdc_SetDescriptor_stored.
      * rewrite imbdcp_SetDescriptor_other_algorithm;
          [|done|by apply well_formed_has_algorithm, Hc|done].
        rewrite mbdc_SetDescriptor_stored by auto.
        by rewrite mbdc_SetDescriptor_stored.
Qed.

(** X3.  On a reachable state the provider's SetDescriptor succeeds exactly
    when the digest is already known to the global cache, or it is unknown,
    the descriptor is well formed and, should the descriptor's digest be of
    another algorithm, that digest is well formed too. *)
Theorem X3_provider_success s D V :
  reachable s →
  (imbdcp.SetDescriptor (mem s) D V).2 = Returns None ↔
  (∃ V0, imbdcp.Stat (mem s) D = Ok V0) ∨
  (imbdcp.Stat (mem s) D = Err ErrBlobUnknown ∧
   descriptor_well_formed V = true ∧
   (Algorithm D ≠ Algorithm (Digest V) →
    digest_well_formed (Digest V) = true)).
Proof. intros Hg%reachable_global. by apply imbdcp_SetDescriptor_success_iff. Qed.
End provider_outcomes.

(** ** One leaf cache per repository *)

Section one_per_repository.
Context `{!Collaborators}.

Lemma shape_frame m m' :
  provider m' = provider m → length (caches m') = length (caches m) →
  one_cache_per_repository m → one_cache_per_repository m'.
Proof. intros Hp Hl [Hg Hc Hd]. split; rewrite ?Hp, ?Hl; done. Qed.

Lemma bind_shape m w :
  pointers_valid m → one_cache_per_repository m →
  one_cache_per_repository (rsimbdcp.bind m w).1.
Proof.
  intros [_ Ht] [Hg Hc Hd].
  destruct (bind_case m w) as [p Hwp|p Hwp Htp|Hwp Htp]; [done..|].
  split; simpl.
  - done.
  - rewrite length_app, map_size_insert_None by done. simpl. lia.
  - intros R1 R2 p.
    destruct (decide (repo w = R1)) as [<-|H1], (decide (repo w = R2)) as [<-|H2];
      rewrite ?lookup_insert_eq, ?lookup_insert_ne by done; try done.
    + intros [= <-] [Hlt _]%Ht. lia.
    + intros [Hlt _]%Ht [= <-]. lia.
    + apply Hd.
Qed.

Lemma exec_shape s c :
  well_formed s → one_cache_per_repository (mem s) →
  one_cache_per_repository (mem (exec s c)).
Proof.
  intros [Hm Hv] Hs. destruct c as [R|d|d v|i d|i d v]; simpl; try done.
  - by destruct (imbdcp.RepositoryScoped (mem s) R).
  - destruct (imbdcp_SetDescriptor_frame (mem s) d v) as [Hp Hl].
    by eapply shape_frame.
  - destruct (views s !! i) as [w|] eqn:Hi; [|done]. simpl.
    destruct (rsimbdcp_SetDescriptor_frame (mem s) w d v) as (Hp & Hl & _).
    eapply shape_frame; [done..|]. by apply bind_shape.
Qed.

Lemma run_shape s cs :
  well_formed s → one_cache_per_repository (mem s) →
  one_cache_per_repository (mem (run s cs)).
Proof.
  revert s. induction cs as [|c cs IH]; intros s Hwf Hs; [done|].
  simpl. apply IH; [by apply exec_well_formed|by apply exec_shape].
Qed.

Lemma reachable_shape s : reachable s → one_cache_per_repository (mem s).
Proof.
  intros [cs ->]. apply run_shape; [apply fresh_system_well_formed|].
  split; simpl; [done|by rewrite map_size_empty|].
  intros R1 R2 p. by rewrite lookup_empty.
Qed.

(** X4.  In every reachable state the heap holds exactly the global leaf
    cache and one leaf cache per entry of the repository table: a leaf cache
    is allocated only together with its table entry, no two repositories
    share one, and none of them is the global leaf cache. *)
Theorem X4_one_leaf_cache_per_repository s :
  reachable s →
  length (caches (mem s)) = S (size (repositories (provider (mem s)))) ∧
  (∀ R1 R2 p,
     repositories (provider (mem s)) !! R1 = Some p →
     repositories (provider (mem s)) !! R2 = Some p → R1 = R2) ∧
  (∀ R p, repositories (provider (mem s)) !! R = Some p →
          p ≠ global (provider (mem s)) ∧ p < length (caches (mem s))).
Proof.
  intros Hr. destruct (reachable_shape s Hr) as [_ Hc Hd].
  destruct (reachable_well_formed s Hr) as [[_ Ht] _].
  split_and!; [done..|]. intros R p [? ?]%Ht. done.
Qed.
End one_per_repository.

(** ** Which maps a write reaches *)

Section reach.
Context `{!Collaborators}.

(** [SetDescriptor] on a view, whatever it returns: of the maps that existed,
    only the view's and the global one can change, and the view's map changes
    at most under the digest written. *)
Lemma rsimbdcp_SetDescriptor_loads m w d v :
  pointers_valid m → view_valid m w →
  (∀ q, q ≠ (rsimbdcp.bind m w).2 → q ≠ global (provider m) →
        q < length (caches m) →
        load (rsimbdcp.SetDescriptor m w d v).1.1 q = load m q) ∧
  (∀ k, k ≠ d →
        load (rsimbdcp.SetDescriptor m w d v).1.1 (rsimbdcp.bind m w).2 !! k
        = load (rsimbdcp.bind m w).1 (rsimbdcp.bind m w).2 !! k).
Proof.
  intros Hm Hw.
  destruct (bind_valid m w Hm Hw) as ([Hg1 Ht1] & Hp & Hgeq & _ & _ & Hload).
  destruct (Ht1 _ _ Hp) as [Hplt Hpg].
  destruct (digest_well_formed d) eqn:Hd, (descriptor_well_formed v) eqn:Hv;
    try (rewrite rsimbdcp_SetDescriptor_rejected by auto; simpl;
         split; [intros q _ _ Hq; by apply Hload|done]).
  rewrite rsimbdcp_SetDescriptor_accepted by done. simpl.
  set (m1 := (rsimbdcp.bind m w).1) in *.
  set (p := (rsimbdcp.bind m w).2) in *.
  set (m2 := store m1 p (<[d:=v]> (load m1 p))).
  assert (global (provider m2) < length (caches m2)) as Hg2
    by (unfold m2, store; simpl; by rewrite length_insert).
  split.
  - intros q Hqp Hqg Hq.
    rewrite imbdcp_SetDescriptor_load_other; [|done|simpl; congruence].
    unfold m2. rewrite load_store_ne by done. by apply Hload.
  - intros k Hk.
    rewrite imbdcp_SetDescriptor_load_other by done.
    unfold m2. by rewrite load_store_eq, lookup_insert_ne.
Qed.

Lemma view_in_reachable s w :
  reachable s → w ∈ views s →
  pointers_valid (mem s) ∧ view_valid (mem s) w.
Proof. intros [Hm Hv]%reachable_well_formed Hw. split; [done|by apply Hv]. Qed.

Lemma rsimbdcp_SetDescriptor_table_other m w d v R :
  R ≠ repo w →
  repositories (provider (rsimbdcp.SetDescriptor m w d v).1.1) !! R
  = repositories (provider m) !! R.
Proof.
  intros Hne.
  destruct (rsimbdcp_SetDescriptor_frame m w d v) as (-> & _ & _).
  by apply bind_table_other.
Qed.

(** X5.  A write through the provider never reaches a repository: after
    set(global, D, V), whatever it returns, every view handed out so far
    answers every Stat as before, and RepositoryScoped returns the views it
    would have returned before. *)
Theorem X5_global_write_invisible_to_views s D V :
  reachable s →
  (∀ w k, w ∈ views s →
     rsimbdcp.Stat (imbdcp.SetDescriptor (mem s) D V).1 w k
     = rsimbdcp.Stat (mem s) w k) ∧
  (∀ R, imbdcp.RepositoryScoped (imbdcp.SetDescriptor (mem s) D V).1 R
        = imbdcp.RepositoryScoped (mem s) R).
Proof.
  intros Hr. split.
  - intros w k Hw.
    destruct (view_in_reachable s w Hr Hw) as [[Hg Ht] Hv].
    unfold rsimbdcp.Stat. destruct (repository w) as [p|] eqn:Hp; [|done].
    destruct (Ht _ _ (Hv p Hp)) as [_ Hpg].
    unfold mbdc.Stat. by rewrite imbdcp_SetDescriptor_load_other.
  - intros R. unfold imbdcp.RepositoryScoped.
    by destruct (imbdcp_SetDescriptor_frame (mem s) D V) as [-> _].
Qed.

(** X6.  Repositories are isolated from each other: a SetDescriptor through a
    view of one repository, whatever it returns, changes no answer of any
    view of another repository, and leaves that repository's table entry as
    it was. *)
Theorem X6_repositories_isolated s w1 w2 D V :
  reachable s → w1 ∈ views s → w2 ∈ views s → repo w1 ≠ repo w2 →
  (∀ k, rsimbdcp.Stat (rsimbdcp.SetDescriptor (mem s) w1 D V).1.1 w2 k
        = rsimbdcp.Stat (mem s) w2 k) ∧
  imbdcp.RepositoryScoped (rsimbdcp.SetDescriptor (mem s) w1 D V).1.1 (repo w2)
  = imbdcp.RepositoryScoped (mem s) (repo w2).
Proof.
  intros Hr Hw1 Hw2 Hne.
  destruct (view_in_reachable s w1 Hr Hw1) as [Hm Hv1].
  destruct (view_in_reachable s w2 Hr Hw2) as [_ Hv2].
  split.
  - intros k. unfold rsimbdcp.Stat.
    destruct (repository w2) as [p2|] eqn:Hp2; [|done].
    pose proof (Hv2 p2 Hp2) as Ht2.
    destruct Hm as [Hg Ht]. destruct (Ht _ _ Ht2) as [Hlt2 Hg2].
    destruct (rsimbdcp_SetDescriptor_loads (mem s) w1 D V (conj Hg Ht) Hv1)
      as [Hother _].
    unfold mbdc.Stat. rewrite Hother; [done| |done..].
    destruct (bind_valid (mem s) w1 (conj Hg Ht) Hv1)
      as (_ & Hp1 & _ & Hkeep & _).
    intros ->. rewrite <- (Hkeep (repo w2)) in Ht2 by congruence.
    destruct (reachable_shape s Hr) as [_ _ Hd].
    destruct (bind_case (mem s) w1) as [p Hwp|p Hwp Htp|Hwp Htp];
      simpl in *.
    + apply Hne. eapply Hd; [by apply Hv1|done].
    + apply Hne. by eapply Hd.
    + lia.
  - unfold imbdcp.RepositoryScoped.
    by rewrite rsimbdcp_SetDescriptor_table_other.
Qed.
End reach.

(** ** What a write through a view gives the views of its repository *)

Section shared.
Context `{!Collaborators}.

Lemma rsimbdcp_SetDescriptor_table m w d v :
  pointers_valid m → view_valid m w →
  repositories (provider (rsimbdcp.SetDescriptor m w d v).1.1) !! repo w
  = Some (rsimbdcp.bind m w).2.
Proof.
  intros Hm Hw.
  destruct (rsimbdcp_SetDescriptor_frame m w d v) as (-> & _ & _).
  by destruct (bind_valid m w Hm Hw) as (_ & ? & _).
Qed.

(** X7.  The views of a repository share its leaf cache: after a successful
    SetDescriptor(D, V) through one view, Stat(D) returns V through that
    view, through every bound view of the same repository handed out
    earlier, and through every view RepositoryScoped hands out for it
    afterwards. *)
Theorem X7_views_share_the_leaf_cache s w D V m' w' :
  reachable s → w ∈ views s →
  rsimbdcp.SetDescriptor (mem s) w D V = (m', w', Returns None) →
  rsimbdcp.Stat m' w' D = Ok V ∧
  (∀ w2, w2 ∈ views s → repo w2 = repo w → is_Some (repository w2) →
         rsimbdcp.Stat m' w2 D = Ok V) ∧
  (∀ w2, imbdcp.RepositoryScoped m' (repo w) = Ok w2 →
         rsimbdcp.Stat m' w2 D = Ok V).
Proof.
  intros Hr Hw Hset.
  destruct (view_in_reachable s w Hr Hw) as [Hm Hv].
  destruct (rsimbdcp_SetDescriptor_success_valid _ _ _ _ _ _ Hset) as [Hd _].
  pose proof (rsimbdcp_SetDescriptor_table (mem s) w D V Hm Hv) as Ht.
  destruct (rsimbdcp_SetDescriptor_success _ _ _ _ _ _ Hm Hv Hset)
    as (m2 & p & -> & Hb & _ & _ & _ & _ & _ & _ & Hload).
  rewrite Hset, Hb in Ht; simpl in Ht.
  assert (mbdc.Stat m' p D = Ok V) as Hstat by (by apply mbdc_Stat_Ok).
  split_and!.
  - done.
  - intros w2 Hw2 Hrepo [p2 Hp2]. unfold rsimbdcp.Stat. rewrite Hp2.
    destruct (view_in_reachable s w2 Hr Hw2) as [_ Hv2].
    pose proof (Hv2 p2 Hp2) as Ht2. rewrite Hrepo in Ht2.
    assert (repositories (provider m') !! repo w = Some p2) as Ht2'.
    { replace m' with (rsimbdcp.SetDescriptor (mem s) w D V).1.1
        by (by rewrite Hset).
      destruct (rsimbdcp_SetDescriptor_frame (mem s) w D V) as (-> & _ & _).
      by apply bind_table_mono. }
    by replace p2 with p by congruence.
  - intros w2 [_ ->]%RepositoryScoped_Ok. unfold rsimbdcp.Stat; simpl.
    by rewrite Ht.
Qed.

(** X8.  A write through a view stores one entry in the repository's leaf
    cache: the canonical entry the provider may add goes to the global cache
    only.  For every well formed digest other than the one written, the view
    answers after SetDescriptor, whatever it returned, what a view of the
    repository answered before. *)
Theorem X8_view_write_stores_one_entry s w w0 D V k :
  reachable s → w ∈ views s →
  imbdcp.RepositoryScoped (mem s) (repo w) = Ok w0 →
  k ≠ D → digest_well_formed k = true →
  rsimbdcp.Stat (rsimbdcp.SetDescriptor (mem s) w D V).1.1
    (rsimbdcp.SetDescriptor (mem s) w D V).1.2 k
  = rsimbdcp.Stat (mem s) w0 k.
Proof.
  intros Hr Hw [_ ->]%RepositoryScoped_Ok Hk Hkd.
  destruct (view_in_reachable s w Hr Hw) as [Hm Hv].
  destruct (rsimbdcp_SetDescriptor_loads (mem s) w D V Hm Hv) as [_ Hsame].
  destruct (rsimbdcp_SetDescriptor_frame (mem s) w D V) as (_ & _ & ->).
  unfold rsimbdcp.Stat, mbdc.Stat; simpl.
  apply validateDigest_None in Hkd. rewrite Hkd, Hsame by done.
  destruct (bind_case (mem s) w) as [p Hwp|p Hwp Htp|Hwp Htp]; simpl.
  - by rewrite (Hv p Hwp).
  - by rewrite Htp.
  - rewrite Htp. unfold load; simpl.
    rewrite lookup_total_app_r by done. rewrite Nat.sub_diag; simpl.
    by rewrite lookup_empty.
Qed.

(** X9.  On a reachable state, SetDescriptor(D, V) through a view succeeds
    exactly when D and V are well formed and the provider's SetDescriptor
    would succeed: the global cache already knows D, or V's digest has the
    algorithm of D, or V's digest is well formed. *)
Theorem X9_view_success s w D V :
  reachable s → w ∈ views s →
  (rsimbdcp.SetDescriptor (mem s) w D V).2 = Returns None ↔
  digest_well_formed D = true ∧ descriptor_well_formed V = true ∧
  ((∃ V0, imbdcp.Stat (mem s) D = Ok V0) ∨
   Algorithm D = Algorithm (Digest V) ∨
   digest_well_formed (Digest V) = true).
Proof.
  intros Hr Hw.
  destruct (view_in_reachable s w Hr Hw) as [Hm Hv].
  destruct (digest_well_formed D) eqn:Hd, (descriptor_well_formed V) eqn:Hv';
    try (rewrite rsimbdcp_SetDescriptor_rejected by auto; simpl;
         rewrite ?Hd; split; [done|by intros (? & ? & _)]).
  rewrite rsimbdcp_SetDescriptor_accepted by done. simpl.
  destruct (bind_valid (mem s) w Hm Hv) as ([Hg1 Ht1] & Hp & Hgeq & _ & _ & Hload).
  destruct (Ht1 _ _ Hp) as [Hplt Hpg].
  set (m1 := (rsimbdcp.bind (mem s) w).1) in *.
  set (p := (rsimbdcp.bind (mem s) w).2) in *.
  set (m2 := store m1 p (<[D:=V]> (load m1 p))).
  assert (global (provider m2) < length (caches m2)) as Hg2
    by (unfold m2, store; simpl; by rewrite length_insert).
  assert (imbdcp.Stat m2 D = imbdcp.Stat (mem s) D) as Hstat.
  { unfold m2. rewrite imbdcp_Stat_store_other by done.
    unfold imbdcp.Stat, mbdc.Stat. rewrite Hgeq, Hload; [done|].
    by destruct Hm. }
  rewrite imbdcp_SetDescriptor_success_iff, Hstat by done.
  split.
  - intros [Hknown|(Hu & _ & Hc)]; split_and!; try done; [by left|].
    right. destruct (decide (Algorithm D = Algorithm (Digest V))); auto.
  - intros (_ & _ & [Hknown|Hrest]); [by left|].
    destruct (imbdcp.Stat (mem s) D) as [V0|e] eqn:Hs; [left; by exists V0|].
    right. destruct (imbdcp_Stat_Err _ _ _ Hs) as [[-> _]|[_ ?]]; [|congruence].
    split_and!; [done..|]. intros Ha. by destruct Hrest.
Qed.
End shared.

(** ** What the maps hold over time *)

Section contents.
Context `{!Collaborators}.

Lemma load_Forall (P : gmap digest.Digest Descriptor → Prop) m p :
  P ∅ → Forall P (caches m) → P (load m p).
Proof.
  intros Hempty Hall. unfold load.
  destruct (caches m !! p) as [c|] eqn:Hp.
  - rewrite (list_lookup_total_correct _ _ _ Hp).
    eapply (Forall_lookup_1 P); [apply Hall|apply Hp].
  - by rewrite list_lookup_total_alt, Hp.
Qed.

Lemma validated_empty : validated ∅.
Proof. intros k v. by rewrite lookup_empty. Qed.

Lemma mbdc_SetDescriptor_validated m p d v :
  Forall validated (caches m) →
  Forall validated (caches (mbdc.SetDescriptor m p d v).1).
Proof.
  intros Hm. destruct (mbdc_SetDescriptor_spec m p d v) as [?|? ?|Hd Hv];
    simpl; try done.
  apply Forall_insert; [done|]. intros k v'.
  destruct (decide (d = k)) as [<-|Hne].
  - rewrite lookup_insert_eq. by intros [= <-].
  - rewrite lookup_insert_ne by done.
    apply (load_Forall validated); [apply validated_empty|done].
Qed.

Lemma imbdcp_SetDescriptor_validated m d v :
  Forall validated (caches m) →
  Forall validated (caches (imbdcp.SetDescriptor m d v).1).
Proof.
  intros Hm.
  destruct (imbdcp_SetDescriptor_cases m d v) as [->|[->|(m' & Hc & ->)]];
    simpl; [done|by apply mbdc_SetDescriptor_validated|].
  pose proof (mbdc_SetDescriptor_validated m (global (provider m)) (Digest v) v
                Hm) as Hm'.
  rewrite Hc in Hm'. by apply mbdc_SetDescriptor_validated.
Qed.

Lemma rsimbdcp_SetDescriptor_validated m w d v :
  Forall validated (caches m) →
  Forall validated (caches (rsimbdcp.SetDescriptor m w d v).1.1).
Proof.
  intros Hm. unfold rsimbdcp.SetDescriptor.
  assert (Forall validated (caches (rsimbdcp.bind m w).1)) as Hm1.
  { destruct (bind_case m w); try done.
    apply Forall_app. split; [done|].
    apply Forall_singleton, validated_empty. }
  destruct (rsimbdcp.bind m w) as [m1 p]; simpl in *.
  pose proof (mbdc_SetDescriptor_validated m1 p d v Hm1) as Hm2.
  destruct (mbdc.SetDescriptor m1 p d v) as [m2 [e|]]; [done|].
  pose proof (imbdcp_SetDescriptor_validated m2 d v Hm2) as Hm3.
  by destruct (imbdcp.SetDescriptor m2 d v).
Qed.

Lemma exec_validated s c :
  Forall validated (caches (mem s)) →
  Forall validated (caches (mem (exec s c))).
Proof.
  intros Hm. destruct c as [R|d|d v|i d|i d v]; simpl; try done.
  - by destruct (imbdcp.RepositoryScoped (mem s) R).
  - by apply imbdcp_SetDescriptor_validated.
  - destruct (views s !! i); [|done]. simpl.
    by apply rsimbdcp_SetDescriptor_validated.
Qed.

Lemma reachable_validated s :
  reachable s → Forall validated (caches (mem s)).
Proof.
  intros [cs ->].
  assert (∀ s0, Forall validated (caches (mem s0)) →
                Forall validated (caches (mem (run s0 cs)))) as Hrun.
  { induction cs as [|c cs IH]; intros s0 H0; [done|].
    simpl. by apply IH, exec_validated. }
  apply Hrun, Forall_singleton, validated_empty.
Qed.

(** X10.  Only validated entries are ever stored: on a reachable state, a
    descriptor returned by Stat, of the provider or of any view, is well
    formed, and so is the digest it is returned for. *)
Theorem X10_stat_returns_validated_descriptors s D V :
  reachable s →
  (imbdcp.Stat (mem s) D = Ok V →
   digest_well_formed D = true ∧ descriptor_well_formed V = true) ∧
  (∀ w, rsimbdcp.Stat (mem s) w D = Ok V →
        digest_well_formed D = true ∧ descriptor_well_formed V = true).
Proof.
  intros Hall%reachable_validated.
  assert (∀ p, mbdc.Stat (mem s) p D = Ok V →
               digest_well_formed D = true ∧ descriptor_well_formed V = true)
    as Hleaf.
  { intros p [_ Hl]%mbdc_Stat_Ok.
    by apply (load_Forall validated (mem s) p validated_empty Hall). }
  split; [apply Hleaf|].
  intros w. unfold rsimbdcp.Stat. destruct (repository w); [apply Hleaf|done].
Qed.

(** Nothing is ever removed from a map. *)
Lemma known_store_insert m p k v q d :
  known m q d → known (store m p (<[k := v]> (load m p))) q d.
Proof.
  unfold known. intros Hq.
  destruct (decide (p = q)) as [->|Hne]; [|by rewrite load_store_ne].
  destruct (decide (q < length (caches m))) as [Hlt|Hge].
  - rewrite load_store_eq by done. apply lookup_insert_is_Some.
    destruct (decide (k = d)); auto.
  - unfold store. rewrite list_insert_ge by lia. by destruct m.
Qed.

Lemma known_mbdc_SetDescriptor m p k v q d :
  known m q d → known (mbdc.SetDescriptor m p k v).1 q d.
Proof.
  intros Hq. destruct (mbdc_SetDescriptor_spec m p k v); simpl; try done.
  by apply known_store_insert.
Qed.

Lemma known_imbdcp_SetDescriptor m k v q d :
  known m q d → known (imbdcp.SetDescriptor m k v).1 q d.
Proof.
  intros Hq.
  destruct (imbdcp_SetDescriptor_cases m k v) as [->|[->|(m' & Hc & ->)]];
    simpl; [done|by apply known_mbdc_SetDescriptor|].
  pose proof (known_mbdc_SetDescriptor m (global (provider m)) (Digest v) v
                q d Hq) as Hq'.
  rewrite Hc in Hq'. by apply known_mbdc_SetDescriptor.
Qed.

Lemma known_bind m w q d : known m q d → known (rsimbdcp.bind m w).1 q d.
Proof.
  intros Hq. destruct (bind_case m w); try done.
  unfold known in *.
  destruct (decide (q < length (caches m))) as [Hlt|Hge].
  - unfold load in *; simpl. by rewrite lookup_total_app_l.
  - unfold load in Hq. rewrite list_lookup_total_alt in Hq.
    rewrite lookup_ge_None_2 in Hq by lia. simpl in Hq.
    rewrite lookup_empty in Hq. by destruct Hq.
Qed.

Lemma known_rsimbdcp_SetDescriptor m w k v q d :
  known m q d → known (rsimbdcp.SetDescriptor m w k v).1.1 q d.
Proof.
  intros Hq. unfold rsimbdcp.SetDescriptor.
  pose proof (known_bind m w q d Hq) as Hq1.
  destruct (rsimbdcp.bind m w) as [m1 p]; simpl in *.
  pose proof (known_mbdc_SetDescriptor m1 p k v q d Hq1) as Hq2.
  destruct (mbdc.SetDescriptor m1 p k v) as [m2 [e|]]; [done|].
  pose proof (known_imbdcp_SetDescriptor m2 k v q d Hq2) as Hq3.
  by destruct (imbdcp.SetDescriptor m2 k v).
Qed.

Lemma known_exec s c q d : known (mem s) q d → known (mem (exec s c)) q d.
Proof.
  intros Hq. destruct c as [R|k|k v|i k|i k v]; simpl; try done.
  - by destruct (imbdcp.RepositoryScoped (mem s) R).
  - by apply known_imbdcp_SetDescriptor.
  - destruct (views s !! i); [|done]. simpl.
    by apply known_rsimbdcp_SetDescriptor.
Qed.

Lemma known_run s cs q d : known (mem s) q d → known (mem (run s cs)) q d.
Proof.
  revert s. induction cs as [|c cs IH]; intros s Hq; [done|].
  simpl. by apply IH, known_exec.
Qed.

Lemma exec_global s c :
  global (provider (mem (exec s c))) = global (provider (mem s)).
Proof.
  destruct c as [R|k|k v|i k|i k v]; simpl; try done.
  - by destruct (imbdcp.RepositoryScoped (mem s) R).
  - by destruct (imbdcp_SetDescriptor_frame (mem s) k v) as [-> _].
  - destruct (views s !! i) as [w|]; [|done]. simpl.
    destruct (rsimbdcp_SetDescriptor_frame (mem s) w k v) as (-> & _ & _).
    by destruct (bind_case (mem s) w).
Qed.

Lemma run_global s cs :
  global (provider (mem (run s cs))) = global (provider (mem s)).
Proof.
  revert s. induction cs as [|c cs IH]; intros s; [done|].
  simpl. by rewrite IH, exec_global.
Qed.

Lemma run_table_mono s cs R p :
  repositories (provider (mem s)) !! R = Some p →
  repositories (provider (mem (run s cs))) !! R = Some p.
Proof.
  revert s. induction cs as [|c cs IH]; intros s Hp; [done|].
  simpl. by apply IH, exec_table_mono.
Qed.

Lemma mbdc_Stat_known m p d :
  (∃ v, mbdc.Stat m p d = Ok v) ↔ digest_well_formed d = true ∧ known m p d.
Proof.
  split.
  - intros [v [Hd Hl]%mbdc_Stat_Ok]. split; [done|by exists v].
  - intros [Hd [v Hl]]. exists v. by apply mbdc_Stat_Ok.
Qed.

(** X11.  Nothing is evicted: a digest the global cache knows stays known to
    it through every later sequence of calls, and a digest a repository's
    view knows stays known to the views of that repository. *)
Theorem X11_known_digests_stay_known s cs D V :
  (imbdcp.Stat (mem s) D = Ok V →
   ∃ V', imbdcp.Stat (mem (run s cs)) D = Ok V') ∧
  (∀ R w, imbdcp.RepositoryScoped (mem s) R = Ok w →
          rsimbdcp.Stat (mem s) w D = Ok V →
          imbdcp.RepositoryScoped (mem (run s cs)) R = Ok w ∧
          ∃ V', rsimbdcp.Stat (mem (run s cs)) w D = Ok V').
Proof.
  split.
  - intros Hs. unfold imbdcp.Stat in *. rewrite run_global.
    apply mbdc_Stat_known. split.
    + by apply mbdc_Stat_Ok in Hs as [? _].
    + apply known_run. apply mbdc_Stat_known. by exists V.
  - intros R w [HR ->]%RepositoryScoped_Ok. unfold rsimbdcp.Stat; simpl.
    destruct (repositories (provider (mem s)) !! R) as [p|] eqn:Hp; [|done].
    intros Hs. split.
    + apply RepositoryScoped_Ok. split; [done|].
      by rewrite (run_table_mono s cs R p Hp).
    + apply mbdc_Stat_known. split.
      * by apply mbdc_Stat_Ok in Hs as [? _].
      * apply known_run. apply mbdc_Stat_known. by exists V.
Qed.
End contents.

(** ** Repository scopes are mirrored in the global scope *)

Section mirror.
Context `{!Collaborators}.
Hypothesis checked : descriptor_digest_checked.

Lemma imbdcp_SetDescriptor_makes_known m d v :
  global (provider m) < length (caches m) →
  digest_well_formed d = true → descriptor_well_formed v = true →
  known (imbdcp.SetDescriptor m d v).1 (global (provider m)) d.
Proof using checked.
  intros Hg Hd Hv.
  destruct (imbdcp_SetDescriptor_spec m d v Hg)
    as [v0 Hs|?|_ Ha|_ _ _ Hc|_ _ ?|_ _ _]; simpl; try congruence.
  - apply mbdc_Stat_Ok in Hs as [_ Hs]. by exists v0.
  - destruct (well_formed_has_algorithm (Digest v)) as [a' Ha'];
      [by apply checked|congruence].
  - rewrite checked in Hc by done. done.
  - unfold known. rewrite load_store_eq by done.
    exists v. apply first_write_alias.
Qed.

Lemma bind_mirrored m w :
  pointers_valid m → mirrored m → mirrored (rsimbdcp.bind m w).1.
Proof.
  intros [Hg Ht] Hmir.
  destruct (bind_case m w) as [p Hwp|p Hwp Htp|Hwp Htp]; [done..|].
  intros R q k; simpl. unfold known.
  destruct (decide (repo w = R)) as [<-|Hne].
  - rewrite lookup_insert_eq. intros [= <-].
    unfold load; simpl. rewrite lookup_total_app_r by done.
    rewrite Nat.sub_diag; simpl. rewrite lookup_empty. by intros [].
  - rewrite lookup_insert_ne by done. intros Hq.
    destruct (Ht _ _ Hq) as [Hlt _].
    unfold load; simpl. rewrite !lookup_total_app_l by done.
    intros Hk. by eapply Hmir.
Qed.

Lemma rsimbdcp_SetDescriptor_mirrored m w d v :
  pointers_valid m → view_valid m w → mirrored m →
  mirrored (rsimbdcp.SetDescriptor m w d v).1.1.
Proof using checked.
  intros Hm Hw Hmir.
  pose proof (bind_mirrored m w Hm Hmir) as Hmir1.
  destruct (bind_valid m w Hm Hw) as ([Hg1 Ht1] & Hp & Hgeq & _ & _ & _).
  destruct (Ht1 _ _ Hp) as [Hplt Hpg].
  destruct (digest_well_formed d) eqn:Hd, (descriptor_well_formed v) eqn:Hv;
    try (by rewrite rsimbdcp_SetDescriptor_rejected by auto).
  rewrite rsimbdcp_SetDescriptor_accepted by done. simpl.
  set (m1 := (rsimbdcp.bind m w).1) in *.
  set (p := (rsimbdcp.bind m w).2) in *.
  set (m2 := store m1 p (<[d:=v]> (load m1 p))).
  assert (global (provider m2) < length (caches m2)) as Hg2
    by (unfold m2, store; simpl; by rewrite length_insert).
  destruct (imbdcp_SetDescriptor_frame m2 d v) as [Hprov _].
  pose proof (imbdcp_SetDescriptor_makes_known m2 d v Hg2 Hd Hv) as Hd'.
  intros R q k. rewrite Hprov. simpl. intros Hq Hk.
  destruct (Ht1 _ _ Hq) as [Hqlt Hqg].
  unfold known in Hk.
  rewrite imbdcp_SetDescriptor_load_other in Hk by done.
  assert (known m1 (global (provider m1)) k →
          known (imbdcp.SetDescriptor m2 d v).1 (global (provider m1)) k)
    as Hup.
  { intros Hk1. apply known_imbdcp_SetDescriptor.
    by apply known_store_insert. }
  destruct (decide (q = p)) as [->|Hqp].
  - unfold m2 in Hk. rewrite load_store_eq in Hk by done.
    destruct (decide (k = d)) as [->|Hkd]; [done|].
    rewrite lookup_insert_ne in Hk by done.
    apply Hup. by eapply Hmir1.
  - unfold m2 in Hk. rewrite load_store_ne in Hk by done.
    apply Hup. by eapply Hmir1.
Qed.

Lemma exec_mirrored s c :
  well_formed s → mirrored (mem s) → mirrored (mem (exec s c)).
Proof using checked.
  intros [Hm Hv] Hmir. destruct c as [R|d|d v|i d|i d v]; simpl; try done.
  - by destruct (imbdcp.RepositoryScoped (mem s) R).
  - destruct (imbdcp_SetDescriptor_frame (mem s) d v) as [Hprov _].
    destruct Hm as [Hg Ht].
    intros R q k. rewrite Hprov. intros Hq Hk.
    destruct (Ht _ _ Hq) as [_ Hqg]. unfold known in Hk.
    rewrite imbdcp_SetDescriptor_load_other in Hk by done.
    apply known_imbdcp_SetDescriptor. by eapply Hmir.
  - destruct (views s !! i) as [w|] eqn:Hi; [|done]. simpl.
    apply rsimbdcp_SetDescriptor_mirrored; [done| |done].
    by eapply Hv, list_elem_of_lookup_2.
Qed.

Lemma reachable_mirrored s : reachable s → mirrored (mem s).
Proof using checked.
  intros [cs ->].
  assert (∀ s0, well_formed s0 → mirrored (mem s0) →
                mirrored (mem (run s0 cs))) as Hrun.
  { induction cs as [|c cs IH]; intros s0 Hwf H0; [done|].
    simpl. apply IH; [by apply exec_well_formed|by apply exec_mirrored]. }
  apply Hrun; [apply fresh_system_well_formed|].
  intros R p d. simpl. by rewrite lookup_empty.
Qed.

(** X12.  Provided a descriptor that passes validation carries a digest that
    passes validation: on a reachable state, every digest that a view
    answers with a descriptor is known to the global cache as well, for the
    views handed out so far and for those RepositoryScoped would hand out. *)
Theorem X12_repository_scopes_are_mirrored s w D V :
  reachable s →
  w ∈ views s ∨ (∃ R, imbdcp.RepositoryScoped (mem s) R = Ok w) →
  rsimbdcp.Stat (mem s) w D = Ok V →
  ∃ V', imbdcp.Stat (mem s) D = Ok V'.
Proof using checked.
  intros Hr Hw Hs.
  assert (view_valid (mem s) w) as Hv.
  { destruct Hw as [Hw|[R Hw]].
    - by apply (view_in_reachable s w Hr Hw).
    - by apply RepositoryScoped_valid in Hw as [? _]. }
  unfold rsimbdcp.Stat in Hs.
  destruct (repository w) as [p|] eqn:Hp; [|done].
  apply mbdc_Stat_known. apply mbdc_Stat_Ok in Hs as [Hd Hl].
  split; [done|].
  eapply (reachable_mirrored s Hr); [by apply Hv|by exists V].
Qed.

Lemma bind_answers m w k :
  view_valid m w → digest_well_formed k = true →
  mbdc.Stat (rsimbdcp.bind m w).1 (rsimbdcp.bind m w).2 k
  = rsimbdcp.Stat m (mkView (repo w) (repositories (provider m) !! repo w)) k.
Proof.
  intros Hv Hk. unfold rsimbdcp.Stat, mbdc.Stat; simpl.
  apply validateDigest_None in Hk. rewrite Hk.
  destruct (bind_case m w) as [p Hwp|p Hwp Htp|Hwp Htp]; simpl.
  - by rewrite (Hv p Hwp).
  - by rewrite Htp.
  - rewrite Htp. unfold load; simpl.
    rewrite lookup_total_app_r by done. rewrite Nat.sub_diag; simpl.
    by rewrite lookup_empty.
Qed.

(** X13.  Under the same proviso a SetDescriptor through a view is all or
    nothing for the maps: when it does not return success, the digest or
    the descriptor was refused by validation, no map has changed, and only
    the calling view has: the provider and every other view handed out so
    far answer every Stat as before, and the calling view, now bound,
    answers for every well formed digest what a view of its repository
    obtained before the call answered. *)
Theorem X13_view_failure_stores_nothing s i w D V :
  reachable s → views s !! i = Some w →
  (rsimbdcp.SetDescriptor (mem s) w D V).2 ≠ Returns None →
  (digest_well_formed D = false ∨ descriptor_well_formed V = false) ∧
  (∀ k, imbdcp.Stat (mem (exec s (CallViewSetDescriptor i D V))) k
        = imbdcp.Stat (mem s) k) ∧
  (∀ j w2 k, j ≠ i → views s !! j = Some w2 →
     views (exec s (CallViewSetDescriptor i D V)) !! j = Some w2 ∧
     rsimbdcp.Stat (mem (exec s (CallViewSetDescriptor i D V))) w2 k
     = rsimbdcp.Stat (mem s) w2 k) ∧
  (∃ w', views (exec s (CallViewSetDescriptor i D V)) !! i = Some w' ∧
         is_Some (repository w') ∧
         ∀ w0 k, imbdcp.RepositoryScoped (mem s) (repo w) = Ok w0 →
                 digest_well_formed k = true →
                 rsimbdcp.Stat (mem (exec s (CallViewSetDescriptor i D V))) w' k
                 = rsimbdcp.Stat (mem s) w0 k).
Proof using checked.
  intros Hr Hi Hne.
  assert (w ∈ views s) as Hw by (by eapply list_elem_of_lookup_2).
  destruct (view_in_reachable s w Hr Hw) as [Hm Hv].
  assert (digest_well_formed D = false ∨ descriptor_well_formed V = false)
    as Hbad.
  { destruct (digest_well_formed D) eqn:Hd; [|by left].
    destruct (descriptor_well_formed V) eqn:HV; [|by right].
    rewrite rsimbdcp_SetDescriptor_accepted in Hne by done. simpl in Hne.
    destruct (bind_valid (mem s) w Hm Hv) as ([Hg1 Ht1] & _).
    set (m2 := store _ _ _) in Hne.
    assert (global (provider m2) < length (caches m2)) as Hg2
      by (unfold m2, store; simpl; by rewrite length_insert).
    destruct Hne.
    apply imbdcp_SetDescriptor_success_iff; [done|].
    destruct (imbdcp.Stat m2 D) as [V0|e0] eqn:Hs; [left; by exists V0|].
    right. destruct (imbdcp_Stat_Err _ _ _ Hs) as [[-> _]|[_ ?]]; [|congruence].
    split_and!; [done..|]. intros _. by apply checked. }
  split; [done|].
  simpl. rewrite Hi. simpl.
  rewrite rsimbdcp_SetDescriptor_rejected by done. simpl.
  destruct (bind_valid (mem s) w Hm Hv) as (_ & _ & Hgeq & _ & _ & Hload).
  destruct Hm as [Hg Ht]. split_and!.
  - intros k. unfold imbdcp.Stat, mbdc.Stat. by rewrite Hgeq, Hload.
  - intros j w2 k Hji Hj. split.
    + by rewrite list_lookup_insert_ne.
    + unfold rsimbdcp.Stat.
      destruct (repository w2) as [p2|] eqn:Hp2; [|done].
      assert (w2 ∈ views s) as Hw2 by (by eapply list_elem_of_lookup_2).
      destruct (view_in_reachable s w2 Hr Hw2) as [_ Hv2].
      destruct (Ht _ _ (Hv2 p2 Hp2)) as [Hlt _].
      unfold mbdc.Stat. by rewrite Hload.
  - eexists. split_and!.
    + apply list_lookup_insert_eq. by eapply lookup_lt_Some.
    + by eexists.
    + intros w0 k [_ ->]%RepositoryScoped_Ok Hk.
      unfold rsimbdcp.Stat at 1; simpl. by apply bind_answers.
Qed.
End mirror.

(** ** How long the first descriptor of a digest stays *)

Section persistence.
Context `{!Collaborators}.

Lemma imbdcp_SetDescriptor_keeps m k v D V :
  global (provider m) < length (caches m) →
  imbdcp.Stat m D = Ok V →
  (Digest v = D → Algorithm k = Algorithm D) →
  imbdcp.Stat (imbdcp.SetDescriptor m k v).1 D = Ok V.
Proof.
  intros Hg HD Hspare.
  destruct (imbdcp_SetDescriptor_spec m k v Hg) as [| | | | |Hk Hsome Hv];
    simpl; try done.
  pose proof HD as [Hd Hl]%mbdc_Stat_Ok.
  apply imbdcp_Stat_after_store; [done..|].
  assert (k ≠ D) as Hne by (intros ->; congruence).
  unfold first_write. rewrite lookup_insert_ne by done.
  case_bool_decide as Ha; [|done].
  rewrite lookup_insert_ne; [done|].
  intros Heq. apply Ha. rewrite Hspare by done. by rewrite Heq.
Qed.

Lemma imbdcp_Stat_bind m w k :
  pointers_valid m → view_valid m w →
  imbdcp.Stat (rsimbdcp.bind m w).1 k = imbdcp.Stat m k.
Proof.
  intros Hm Hv.
  destruct (bind_valid m w Hm Hv) as (_ & _ & Hgeq & _ & _ & Hload).
  unfold imbdcp.Stat, mbdc.Stat. rewrite Hgeq, Hload; [done|].
  by destruct Hm.
Qed.

Lemma rsimbdcp_SetDescriptor_keeps m w k v D V :
  pointers_valid m → view_valid m w →
  imbdcp.Stat m D = Ok V →
  (Digest v = D → Algorithm k = Algorithm D) →
  imbdcp.Stat (rsimbdcp.SetDescriptor m w k v).1.1 D = Ok V.
Proof.
  intros Hm Hv HD Hspare.
  destruct (bind_valid m w Hm Hv) as ([Hg1 Ht1] & Hp & _).
  destruct (Ht1 _ _ Hp) as [Hplt Hpg].
  destruct (digest_well_formed k) eqn:Hk, (descriptor_well_formed v) eqn:Hv';
    try (rewrite rsimbdcp_SetDescriptor_rejected by auto; simpl;
         by rewrite imbdcp_Stat_bind).
  rewrite rsimbdcp_SetDescriptor_accepted by done. simpl.
  apply imbdcp_SetDescriptor_keeps; [|..|done].
  - unfold store; simpl. by rewrite length_insert.
  - rewrite imbdcp_Stat_store_other by done. by rewrite imbdcp_Stat_bind.
Qed.

Lemma exec_keeps s c D V :
  well_formed s → imbdcp.Stat (mem s) D = Ok V → spares D c →
  imbdcp.Stat (mem (exec s c)) D = Ok V.
Proof.
  intros [Hm Hv] HD Hc. destruct c as [R|k|k v|i k|i k v]; simpl; try done.
  - by destruct (imbdcp.RepositoryScoped (mem s) R).
  - apply imbdcp_SetDescriptor_keeps; [by destruct Hm|done..].
  - destruct (views s !! i) as [w|] eqn:Hi; [|done]. simpl.
    apply rsimbdcp_SetDescriptor_keeps; [done| |done..].
    by eapply Hv, list_elem_of_lookup_2.
Qed.

Lemma run_keeps s cs D V :
  well_formed s → imbdcp.Stat (mem s) D = Ok V → Forall (spares D) cs →
  imbdcp.Stat (mem (run s cs)) D = Ok V.
Proof.
  revert s. induction cs as [|c cs IH]; intros s Hwf HD Hcs; [done|].
  apply Forall_cons in Hcs as [Hc Hcs]. simpl.
  apply IH; [by apply exec_well_formed|by apply exec_keeps|done].
Qed.

(** C6 (amended).  Once set(global, D, V) has succeeded on a reachable state,
    every further set(global, D, V2) succeeds and changes nothing, however
    often it is repeated; so when D was unknown before, stat(global, D) goes
    on returning V.  The descriptor the global cache holds for D then stays
    through every sequence of calls in which each SetDescriptor given a
    descriptor with digest D is given a key of the algorithm of D.  It does
    not stay for ever: the canonical store looks nothing up, so a successful
    set under an unknown key of another algorithm leaves the descriptor just
    given under that descriptor's digest, whatever was there.  A lookup
    error other than BlobUnknown met by set is returned as it is, and
    nothing is written. *)
Theorem C6_first_write_wins s D V m1 :
  reachable s →
  imbdcp.SetDescriptor (mem s) D V = (m1, Returns None) →
  (imbdcp.Stat (mem s) D = Err ErrBlobUnknown → imbdcp.Stat m1 D = Ok V) ∧
  (∀ V2, imbdcp.SetDescriptor m1 D V2 = (m1, Returns None)) ∧
  (∀ V2s, foldl (λ m V2, (imbdcp.SetDescriptor m D V2).1) m1 V2s = m1) ∧
  (∀ V1 cs, imbdcp.Stat m1 D = Ok V1 → Forall (spares D) cs →
            imbdcp.Stat (mem (run (mkSystem m1 (views s)) cs)) D = Ok V1) ∧
  (∀ s' K V' m',
     reachable s' →
     imbdcp.Stat (mem s') K = Err ErrBlobUnknown →
     Algorithm K ≠ Algorithm (Digest V') →
     imbdcp.SetDescriptor (mem s') K V' = (m', Returns None) →
     imbdcp.Stat m' (Digest V') = Ok V') ∧
  (∀ m D' V' e, imbdcp.Stat m D' = Err e → e ≠ ErrBlobUnknown →
                imbdcp.SetDescriptor m D' V' = (m, Returns (Some e))).
Proof.
  intros Hreach Hset. pose proof (reachable_global s Hreach) as Hr.
  assert (∃ V1, imbdcp.Stat m1 D = Ok V1) as [V1 HV1].
  { destruct (imbdcp.Stat (mem s) D) as [V0|e] eqn:Hs.
    - erewrite imbdcp_SetDescriptor_known in Hset by done.
      injection Hset as <-. by exists V0.
    - destruct (imbdcp_Stat_Err _ _ _ Hs) as [[-> _]|[-> Hd]].
      + exists V. by destruct (imbdcp_first_write_read _ _ _ _ Hr Hs Hset).
      + by rewrite imbdcp_SetDescriptor_invalid in Hset. }
  assert (∀ V2, imbdcp.SetDescriptor m1 D V2 = (m1, Returns None)) as Hagain
    by (intros V2; by eapply imbdcp_SetDescriptor_known).
  split_and!.
  - intros Hs. by destruct (imbdcp_first_write_read _ _ _ _ Hr Hs Hset).
  - done.
  - intros V2s. induction V2s as [|V2 V2s IH]; [done|].
    simpl. by rewrite Hagain.
  - intros V1' cs HV1' Hcs. apply run_keeps; [|done..].
    pose proof (exec_well_formed s (CallSetDescriptor D V)
                  (reachable_well_formed s Hreach)) as Hwf.
    simpl in Hwf. by rewrite Hset in Hwf.
  - intros s' K V' m' Hr' Hs' Ha Hset'.
    apply reachable_global in Hr'.
    destruct (imbdcp_first_write_read _ _ _ _ Hr' Hs' Hset') as (_ & Hcan & _).
    by apply Hcan.
  - intros m D' V' e Hs He. unfold imbdcp.SetDescriptor. rewrite Hs.
    by destruct e.
Qed.

(** X14.  The first descriptor stored for a digest in the global cache is
    replaced by one thing only, the canonical store.  On a reachable state
    where stat(global, D) returns V, it keeps returning V through every
    sequence of calls in which each SetDescriptor given a descriptor with
    digest D is given a key of the algorithm of D. *)
Theorem X14_first_descriptor_stays s cs D V :
  reachable s →
  imbdcp.Stat (mem s) D = Ok V →
  Forall (spares D) cs →
  imbdcp.Stat (mem (run s cs)) D = Ok V.
Proof.
  intros Hwf%reachable_well_formed. revert s Hwf.
  induction cs as [|c cs IH]; intros s Hwf HD Hcs; [done|].
  apply Forall_cons in Hcs as [Hc Hcs]. simpl.
  apply IH; [by apply exec_well_formed|by apply exec_keeps|done].
Qed.

Lemma exec_views_named s c :
  (∀ w, w ∈ views s → repository_name_well_formed (repo w) = true) →
  ∀ w, w ∈ views (exec s c) → repository_name_well_formed (repo w) = true.
Proof.
  intros Hn. destruct c as [R|k|k v|i k|i k v]; simpl; try done.
  - destruct (imbdcp.RepositoryScoped (mem s) R) as [w0|] eqn:HR; [|done].
    simpl. intros w [Hw| ->%list_elem_of_singleton]%elem_of_app; [by apply Hn|].
    by apply RepositoryScoped_Ok in HR as [? ->].
  - destruct (views s !! i) as [w0|] eqn:Hi; [|done]. simpl.
    destruct (rsimbdcp_SetDescriptor_frame (mem s) w0 k v) as (_ & _ & ->).
    intros w [->|Hw]%elem_of_insert_inv; [|by apply Hn].
    simpl. by eapply Hn, list_elem_of_lookup_2.
Qed.

(** X15.  Views exist for validated names only: a RepositoryScoped call with
    a name that fails validation returns InvalidRepositoryName and hands out
    nothing, so on a reachable state every view handed out carries a well
    formed repository name, also after its SetDescriptor calls. *)
Theorem X15_views_carry_validated_names s w :
  reachable s → w ∈ views s →
  repository_name_well_formed (repo w) = true.
Proof.
  intros [cs ->]. revert w.
  assert (∀ s0, (∀ w, w ∈ views s0 →
                      repository_name_well_formed (repo w) = true) →
                ∀ w, w ∈ views (run s0 cs) →
                     repository_name_well_formed (repo w) = true) as Hrun.
  { induction cs as [|c cs IH]; intros s0 H0; [done|].
    simpl. by apply IH, exec_views_named. }
  apply Hrun. intros w Hw. by apply elem_of_nil in Hw.
Qed.
End persistence.

(** * The claims on concrete digests, descriptors and repositories

    All of the following runs the cache with the collaborators of
    [sample]. *)

Section examples.
#[local] Existing Instance sample.collaborators.
Import sample.

(** Set(global, sha512:cc, V) with V.digest = sha256:bb on a new provider. *)
Lemma C1_witness :
  imbdcp.Stat
    (imbdcp.SetDescriptor (mem fresh_system) "sha512:cc" (blob "sha256:bb" 1)).1
    "sha512:cc" = Ok (blob "sha256:bb" 1) ∧
  (Algorithm "sha512:cc" ≠ Algorithm (Digest (blob "sha256:bb" 1)) →
   imbdcp.Stat
     (imbdcp.SetDescriptor (mem fresh_system) "sha512:cc" (blob "sha256:bb" 1)).1
     (Digest (blob "sha256:bb" 1)) = Ok (blob "sha256:bb" 1)) ∧
  (Algorithm "sha512:cc" = Algorithm (Digest (blob "sha256:bb" 1)) →
   Digest (blob "sha256:bb" 1) ≠ "sha512:cc" →
   imbdcp.Stat
     (imbdcp.SetDescriptor (mem fresh_system) "sha512:cc" (blob "sha256:bb" 1)).1
     (Digest (blob "sha256:bb" 1))
   = imbdcp.Stat (mem fresh_system) (Digest (blob "sha256:bb" 1))).
Proof.
  apply (C1_canonical_alias_by_algorithm fresh_system).
  - by exists [].
  - vm_compute; reflexivity.
  - vm_compute; reflexivity.
Defined.

(** C1 fails when D and C differ in value only: sha256:aa and sha256:bb are
    both well formed and differ, the set succeeds on a new provider, and the
    global cache still does not know sha256:bb. *)
Lemma C1_counterexample :
  digest_well_formed "sha256:aa" = true ∧
  descriptor_well_formed (blob "sha256:bb" 1) = true ∧
  Digest (blob "sha256:bb" 1) ≠ "sha256:aa" ∧
  imbdcp.Stat NewInMemoryBlobDescriptorCacheProvider "sha256:aa"
    = Err ErrBlobUnknown ∧
  (imbdcp.SetDescriptor NewInMemoryBlobDescriptorCacheProvider
     "sha256:aa" (blob "sha256:bb" 1)).2 = Returns None ∧
  imbdcp.Stat
    (imbdcp.SetDescriptor NewInMemoryBlobDescriptorCacheProvider
       "sha256:aa" (blob "sha256:bb" 1)).1
    "sha256:bb" = Err ErrBlobUnknown.
Proof. split_and!; by vm_compute. Qed.

(** Set(global, sha256:aa, V) met twice. *)
Lemma C7_witness :
  (imbdcp.Stat (mem fresh_system) "sha256:aa" = Err ErrBlobUnknown →
   imbdcp.Stat
     (imbdcp.SetDescriptor (mem fresh_system) "sha256:aa" (blob "sha256:aa" 1)).1
     "sha256:aa" = Ok (blob "sha256:aa" 1)) ∧
  (∀ V0, imbdcp.Stat (mem fresh_system) "sha256:aa" = Ok V0 →
     (imbdcp.SetDescriptor (mem fresh_system) "sha256:aa"
        (blob "sha256:aa" 1)).1 = mem fresh_system ∧
     imbdcp.Stat
       (imbdcp.SetDescriptor (mem fresh_system) "sha256:aa"
          (blob "sha256:aa" 1)).1
       "sha256:aa" = Ok V0).
Proof.
  apply (C7_set_then_stat fresh_system).
  - by exists [].
  - vm_compute; reflexivity.
Defined.

(** C7 fails on a reachable state that already knows D: the set succeeds and
    stat(global, D) returns the older descriptor. *)
Lemma C7_counterexample :
  reachable
    (run fresh_system [CallSetDescriptor "sha256:aa" (blob "sha256:aa" 1)]) ∧
  digest_well_formed "sha256:aa" = true ∧
  descriptor_well_formed (blob "sha256:aa" 2) = true ∧
  Digest (blob "sha256:aa" 2) = "sha256:aa" ∧
  (imbdcp.SetDescriptor
     (mem (run fresh_system
             [CallSetDescriptor "sha256:aa" (blob "sha256:aa" 1)]))
     "sha256:aa" (blob "sha256:aa" 2)).2 = Returns None ∧
  imbdcp.Stat
    (imbdcp.SetDescriptor
       (mem (run fresh_system
               [CallSetDescriptor "sha256:aa" (blob "sha256:aa" 1)]))
       "sha256:aa" (blob "sha256:aa" 2)).1
    "sha256:aa" = Ok (blob "sha256:aa" 1) ∧
  blob "sha256:aa" 1 ≠ blob "sha256:aa" 2.
Proof. split_and!; try (by vm_compute). by eexists. Qed.

(** Further sets under a digest the global cache has just learnt. *)
Lemma C6_witness :
  (imbdcp.Stat (mem fresh_system) "sha256:aa" = Err ErrBlobUnknown →
   imbdcp.Stat
     (imbdcp.SetDescriptor (mem fresh_system) "sha256:aa" (blob "sha256:aa" 1)).1
     "sha256:aa" = Ok (blob "sha256:aa" 1)) ∧
  (∀ V2,
     imbdcp.SetDescriptor
       (imbdcp.SetDescriptor (mem fresh_system) "sha256:aa"
          (blob "sha256:aa" 1)).1
       "sha256:aa" V2
     = ((imbdcp.SetDescriptor (mem fresh_system) "sha256:aa"
           (blob "sha256:aa" 1)).1, Returns None)) ∧
  (∀ V2s,
     foldl (λ m V2, (imbdcp.SetDescriptor m "sha256:aa" V2).1)
       (imbdcp.SetDescriptor (mem fresh_system) "sha256:aa"
          (blob "sha256:aa" 1)).1 V2s
     = (imbdcp.SetDescriptor (mem fresh_system) "sha256:aa"
          (blob "sha256:aa" 1)).1) ∧
  (∀ V1 cs,
     imbdcp.Stat
       (imbdcp.SetDescriptor (mem fresh_system) "sha256:aa"
          (blob "sha256:aa" 1)).1 "sha256:aa" = Ok V1 →
     Forall (spares "sha256:aa") cs →
     imbdcp.Stat
       (mem (run
               (mkSystem
                  (imbdcp.SetDescriptor (mem fresh_system) "sha256:aa"
                     (blob "sha256:aa" 1)).1 (views fresh_system)) cs))
       "sha256:aa" = Ok V1) ∧
  (∀ s' K V' m',
     reachable s' →
     imbdcp.Stat (mem s') K = Err ErrBlobUnknown →
     Algorithm K ≠ Algorithm (Digest V') →
     imbdcp.SetDescriptor (mem s') K V' = (m', Returns None) →
     imbdcp.Stat m' (Digest V') = Ok V') ∧
  (∀ m D' V' e, imbdcp.Stat m D' = Err e → e ≠ ErrBlobUnknown →
                imbdcp.SetDescriptor m D' V' = (m, Returns (Some e))).
Proof.
  apply (C6_first_write_wins fresh_system "sha256:aa" (blob "sha256:aa" 1)).
  - by exists [].
  - vm_compute; reflexivity.
Defined.

(** C6 fails for "permanently".  set(global, sha256:aa, V) succeeds on a new
    provider, a second set(global, sha256:aa, V2) leaves V; a later
    set(global, sha512:cc, V2), where V2 has digest sha256:aa, succeeds and
    stat(global, sha256:aa) returns V2. *)
Lemma C6_counterexample :
  digest_well_formed "sha256:aa" = true ∧
  descriptor_well_formed (blob "sha256:aa" 1) = true ∧
  descriptor_well_formed (blob "sha256:aa" 2) = true ∧
  (imbdcp.SetDescriptor (mem fresh_system) "sha256:aa" (blob "sha256:aa" 1)).2
    = Returns None ∧
  imbdcp.Stat
    (mem (run fresh_system
            [CallSetDescriptor "sha256:aa" (blob "sha256:aa" 1);
             CallSetDescriptor "sha256:aa" (blob "sha256:aa" 2)]))
    "sha256:aa" = Ok (blob "sha256:aa" 1) ∧
  (imbdcp.SetDescriptor
     (mem (run fresh_system
             [CallSetDescriptor "sha256:aa" (blob "sha256:aa" 1);
              CallSetDescriptor "sha256:aa" (blob "sha256:aa" 2)]))
     "sha512:cc" (blob "sha256:aa" 2)).2 = Returns None ∧
  imbdcp.Stat
    (mem (run fresh_system
            [CallSetDescriptor "sha256:aa" (blob "sha256:aa" 1);
             CallSetDescriptor "sha256:aa" (blob "sha256:aa" 2);
             CallSetDescriptor "sha512:cc" (blob "sha256:aa" 2)]))
    "sha256:aa" = Ok (blob "sha256:aa" 2) ∧
  blob "sha256:aa" 2 ≠ blob "sha256:aa" 1.
Proof. split_and!; by vm_compute. Qed.

(** A view of library/ubuntu on a new provider is given a malformed digest. *)
Lemma C2_witness :
  (Bound (mem (exec fresh_system (CallRepositoryScoped "library/ubuntu")))
     "library/ubuntu" →
   Bound
     (mem (exec (exec fresh_system (CallRepositoryScoped "library/ubuntu"))
             (CallViewSetDescriptor 0 "not-a-digest" (blob "sha256:aa" 1))))
     "library/ubuntu") ∧
  (¬ Bound (mem (exec fresh_system (CallRepositoryScoped "library/ubuntu")))
       "library/ubuntu" →
   Bound
     (mem (exec (exec fresh_system (CallRepositoryScoped "library/ubuntu"))
             (CallViewSetDescriptor 0 "not-a-digest" (blob "sha256:aa" 1))))
     "library/ubuntu" →
   written_repository
     (exec fresh_system (CallRepositoryScoped "library/ubuntu"))
     (CallViewSetDescriptor 0 "not-a-digest" (blob "sha256:aa" 1))
   = Some "library/ubuntu") ∧
  (∀ i w d v,
     CallViewSetDescriptor 0 "not-a-digest" (blob "sha256:aa" 1)
       = CallViewSetDescriptor i d v →
     views (exec fresh_system (CallRepositoryScoped "library/ubuntu")) !! i
       = Some w →
     ∃ p,
       views
         (exec (exec fresh_system (CallRepositoryScoped "library/ubuntu"))
            (CallViewSetDescriptor 0 "not-a-digest" (blob "sha256:aa" 1))) !! i
         = Some (mkView (repo w) (Some p)) ∧
       repositories
         (provider
            (mem (exec (exec fresh_system
                          (CallRepositoryScoped "library/ubuntu"))
                    (CallViewSetDescriptor 0 "not-a-digest"
                       (blob "sha256:aa" 1))))) !! repo w = Some p) ∧
  (∀ i w p,
     views (exec fresh_system (CallRepositoryScoped "library/ubuntu")) !! i
       = Some w →
     repository w = Some p →
     ∃ w',
       views
         (exec (exec fresh_system (CallRepositoryScoped "library/ubuntu"))
            (CallViewSetDescriptor 0 "not-a-digest" (blob "sha256:aa" 1))) !! i
         = Some w' ∧
       repo w' = repo w ∧ repository w' = Some p).
Proof.
  apply (C2_bound_at_first_SetDescriptor
           (exec fresh_system (CallRepositoryScoped "library/ubuntu"))).
  by exists [CallRepositoryScoped "library/ubuntu"].
Defined.

(** C2 fails for a write that validation refuses: the view of library/ubuntu
    is unbound and the table has no entry; SetDescriptor with a malformed
    digest fails with InvalidDigest, and the table has an entry afterwards. *)
Lemma C2_counterexample :
  imbdcp.RepositoryScoped NewInMemoryBlobDescriptorCacheProvider
    "library/ubuntu" = Ok (mkView "library/ubuntu" None) ∧
  ¬ Bound NewInMemoryBlobDescriptorCacheProvider "library/ubuntu" ∧
  digest_well_formed "not-a-digest" = false ∧
  (rsimbdcp.SetDescriptor NewInMemoryBlobDescriptorCacheProvider
     (mkView "library/ubuntu" None) "not-a-digest" (blob "sha256:aa" 1)).2 = Returns (Some ErrInvalidDigest) ∧
  repositories
    (provider
       (rsimbdcp.SetDescriptor NewInMemoryBlobDescriptorCacheProvider
          (mkView "library/ubuntu" None) "not-a-digest"
          (blob "sha256:aa" 1)).1.1) !! "library/ubuntu" = Some 1 ∧
  length
    (caches
       (rsimbdcp.SetDescriptor NewInMemoryBlobDescriptorCacheProvider
          (mkView "library/ubuntu" None) "not-a-digest"
          (blob "sha256:aa" 1)).1.1) = 2.
Proof.
  split_and!; try (by vm_compute).
  intros [p Hp]. by vm_compute in Hp.
Qed.



(** A view writes a sha256 descriptor under a sha512 key. *)
Lemma C4_witness :
  leaf_invariant
    (load
       (mem (run fresh_system
               [CallRepositoryScoped "library/ubuntu";
                CallViewSetDescriptor 0 "sha512:cc" (blob "sha256:bb" 1)]))
       (global
          (provider
             (mem (run fresh_system
                     [CallRepositoryScoped "library/ubuntu";
                      CallViewSetDescriptor 0 "sha512:cc"
                        (blob "sha256:bb" 1)]))))) ∧
  ∀ R p,
    repositories
      (provider
         (mem (run fresh_system
                 [CallRepositoryScoped "library/ubuntu";
                  CallViewSetDescriptor 0 "sha512:cc" (blob "sha256:bb" 1)])))
      !! R = Some p →
    leaf_invariant
      (load
         (mem (run fresh_system
                 [CallRepositoryScoped "library/ubuntu";
                  CallViewSetDescriptor 0 "sha512:cc" (blob "sha256:bb" 1)]))
         p).
Proof.
  apply (C4_invariant_for_agreeing_writes
           [CallRepositoryScoped "library/ubuntu";
            CallViewSetDescriptor 0 "sha512:cc" (blob "sha256:bb" 1)]).
  repeat constructor. by vm_compute.
Defined.

(** C4 fails after one call of the public interface: set(global, sha256:aa, V)
    with V.digest = sha256:bb stores, under sha256:aa, a descriptor of the
    same algorithm and another digest. *)
Lemma C4_counterexample :
  ¬ leaf_invariant
      (load
         (mem (run fresh_system
                 [CallSetDescriptor "sha256:aa" (blob "sha256:bb" 1)]))
         (global
            (provider
               (mem (run fresh_system
                       [CallSetDescriptor "sha256:aa" (blob "sha256:bb" 1)]))))).
Proof.
  intros Hinv. specialize (Hinv "sha256:aa" (blob "sha256:bb" 1)).
  by vm_compute in Hinv; specialize (Hinv eq_refl eq_refl).
Qed.

(** A write through the view of library/ubuntu on a new provider, read back
    through that view, through the provider and through library/busybox. *)
Lemma C5_witness :
  rsimbdcp.Stat
    (rsimbdcp.SetDescriptor (mem fresh_system) (mkView "library/ubuntu" None)
       "sha256:aa" (blob "sha256:aa" 1)).1.1
    (rsimbdcp.SetDescriptor (mem fresh_system) (mkView "library/ubuntu" None)
       "sha256:aa" (blob "sha256:aa" 1)).1.2
    "sha256:aa" = Ok (blob "sha256:aa" 1) ∧
  imbdcp.Stat
    (rsimbdcp.SetDescriptor (mem fresh_system) (mkView "library/ubuntu" None)
       "sha256:aa" (blob "sha256:aa" 1)).1.1
    "sha256:aa" = Ok (blob "sha256:aa" 1) ∧
  ∀ R2, R2 ≠ "library/ubuntu" → ¬ Bound (mem fresh_system) R2 →
        repository_name_well_formed R2 = true →
        ∃ w2,
          imbdcp.RepositoryScoped
            (rsimbdcp.SetDescriptor (mem fresh_system)
               (mkView "library/ubuntu" None)
               "sha256:aa" (blob "sha256:aa" 1)).1.1 R2 = Ok w2 ∧
          rsimbdcp.Stat
            (rsimbdcp.SetDescriptor (mem fresh_system)
               (mkView "library/ubuntu" None)
               "sha256:aa" (blob "sha256:aa" 1)).1.1 w2 "sha256:aa"
          = Err ErrBlobUnknown.
Proof.
  apply (C5_repository_isolation fresh_system "library/ubuntu"
           (mkView "library/ubuntu" None)).
  - by exists [].
  - vm_compute; reflexivity.
  - vm_compute; reflexivity.
  - vm_compute; reflexivity.
Defined.

(** library/ubuntu is asked for after library/busybox was written. *)
Lemma C8_witness :
  ∃ w,
    imbdcp.RepositoryScoped
      (mem (run fresh_system
              [CallRepositoryScoped "library/busybox";
               CallViewSetDescriptor 0 "sha256:aa" (blob "sha256:aa" 1)]))
      "library/ubuntu" = Ok w ∧
    mem (exec
           (run fresh_system
              [CallRepositoryScoped "library/busybox";
               CallViewSetDescriptor 0 "sha256:aa" (blob "sha256:aa" 1)])
           (CallRepositoryScoped "library/ubuntu"))
    = mem (run fresh_system
             [CallRepositoryScoped "library/busybox";
              CallViewSetDescriptor 0 "sha256:aa" (blob "sha256:aa" 1)]) ∧
    repository w = None ∧
    rsimbdcp.Stat
      (mem (run fresh_system
              [CallRepositoryScoped "library/busybox";
               CallViewSetDescriptor 0 "sha256:aa" (blob "sha256:aa" 1)]))
      w "sha256:aa" = Err ErrBlobUnknown.
Proof.
  apply (C8_read_before_write
           [CallRepositoryScoped "library/busybox";
            CallViewSetDescriptor 0 "sha256:aa" (blob "sha256:aa" 1)]
           "library/ubuntu" "sha256:aa").
  - simpl. split_and!; [done|by vm_compute|done].
  - by vm_compute.
Defined.

(** Two views of library/ubuntu are taken from a new provider; the second one
    writes, and reads its descriptor back; the first one still knows
    nothing. *)
Lemma C9_witness :
  (views
     (run (exec fresh_system (CallRepositoryScoped "library/ubuntu"))
        [CallRepositoryScoped "library/ubuntu";
         CallViewSetDescriptor 1 "sha256:aa" (blob "sha256:aa" 1)])
     !! length (views fresh_system) = Some (mkView "library/ubuntu" None) ∧
   rsimbdcp.Stat
     (mem (run (exec fresh_system (CallRepositoryScoped "library/ubuntu"))
             [CallRepositoryScoped "library/ubuntu";
              CallViewSetDescriptor 1 "sha256:aa" (blob "sha256:aa" 1)]))
     (mkView "library/ubuntu" None) "sha256:aa" = Err ErrBlobUnknown ∧
   ∀ p V,
     repositories
       (provider
          (mem (run (exec fresh_system (CallRepositoryScoped "library/ubuntu"))
                  [CallRepositoryScoped "library/ubuntu";
                   CallViewSetDescriptor 1 "sha256:aa" (blob "sha256:aa" 1)])))
       !! "library/ubuntu" = Some p →
     rsimbdcp.bind
       (mem (run (exec fresh_system (CallRepositoryScoped "library/ubuntu"))
               [CallRepositoryScoped "library/ubuntu";
                CallViewSetDescriptor 1 "sha256:aa" (blob "sha256:aa" 1)]))
       (mkView "library/ubuntu" None)
     = (mem (run (exec fresh_system (CallRepositoryScoped "library/ubuntu"))
               [CallRepositoryScoped "library/ubuntu";
                CallViewSetDescriptor 1 "sha256:aa" (blob "sha256:aa" 1)]), p) ∧
     (rsimbdcp.SetDescriptor
        (mem (run (exec fresh_system (CallRepositoryScoped "library/ubuntu"))
                [CallRepositoryScoped "library/ubuntu";
                 CallViewSetDescriptor 1 "sha256:aa" (blob "sha256:aa" 1)]))
        (mkView "library/ubuntu" None) "sha256:aa" V).1.2
     = mkView "library/ubuntu" (Some p)) ∧
  (∃ w2,
     views
       (run (exec fresh_system (CallRepositoryScoped "library/ubuntu"))
          [CallRepositoryScoped "library/ubuntu";
           CallViewSetDescriptor 1 "sha256:aa" (blob "sha256:aa" 1)]) !! 1
       = Some w2 ∧
     rsimbdcp.Stat
       (mem (run (exec fresh_system (CallRepositoryScoped "library/ubuntu"))
               [CallRepositoryScoped "library/ubuntu";
                CallViewSetDescriptor 1 "sha256:aa" (blob "sha256:aa" 1)]))
       w2 "sha256:aa" = Ok (blob "sha256:aa" 1)).
Proof.
  split.
  - apply (C9_view_captures_pointer fresh_system "library/ubuntu"
             (mkView "library/ubuntu" None)
             [CallRepositoryScoped "library/ubuntu";
              CallViewSetDescriptor 1 "sha256:aa" (blob "sha256:aa" 1)]
             "sha256:aa").
    + intros [p Hp]. by vm_compute in Hp.
    + by vm_compute.
    + intros d v Hin. simpl in Hin.
      repeat (apply elem_of_cons in Hin as [Hin|Hin]; [discriminate Hin|]).
      by apply elem_of_nil in Hin.
  - exists (mkView "library/ubuntu" (Some 1)). split; by vm_compute.
Defined.

(** Two writes under one digest through the view of library/ubuntu. *)
Lemma C10_witness :
  ∃ m1 w1 m2 w2,
    rsimbdcp.SetDescriptor NewInMemoryBlobDescriptorCacheProvider
      (mkView "library/ubuntu" None) "sha256:aa" (blob "sha256:aa" 1)
      = (m1, w1, Returns None) ∧
    rsimbdcp.SetDescriptor m1 w1 "sha256:aa" (blob "sha256:aa" 2)
      = (m2, w2, Returns None) ∧
    rsimbdcp.Stat m2 w2 "sha256:aa" = Ok (blob "sha256:aa" 2) ∧
    imbdcp.Stat m2 "sha256:aa" = Ok (blob "sha256:aa" 1).
Proof.
  apply (C10_scopes_disagree "library/ubuntu" (mkView "library/ubuntu" None)
           "sha256:aa" (blob "sha256:aa" 1) (blob "sha256:aa" 2));
    by vm_compute.
Defined.
End examples.

(** * The further properties on concrete digests, descriptors and
    repositories *)

Section further_examples.
#[local] Existing Instance sample.collaborators.
Import sample.

Lemma sample_descriptor_digest_checked : descriptor_digest_checked.
Proof.
  intros v. simpl. unfold descriptor_ok.
  by destruct (digest_ok (Digest v)).
Defined.

Lemma X1_witness :
  mbdc.Stat
    (mbdc.SetDescriptor NewInMemoryBlobDescriptorCacheProvider 0
       "sha256:aa" (blob "sha256:aa" 1)).1 0 "sha256:aa"
    = Ok (blob "sha256:aa" 1) ∧
  mbdc.Stat
    (mbdc.SetDescriptor
       (mbdc.SetDescriptor NewInMemoryBlobDescriptorCacheProvider 0
          "sha256:aa" (blob "sha256:aa" 1)).1 0
       "sha256:aa" (blob "sha256:aa" 2)).1 0 "sha256:aa"
    = Ok (blob "sha256:aa" 2) ∧
  (∀ k, k ≠ "sha256:aa" →
        mbdc.Stat
          (mbdc.SetDescriptor NewInMemoryBlobDescriptorCacheProvider 0
             "sha256:aa" (blob "sha256:aa" 1)).1 0 k
        = mbdc.Stat NewInMemoryBlobDescriptorCacheProvider 0 k) ∧
  (∀ q k, q ≠ 0 →
          mbdc.Stat
            (mbdc.SetDescriptor NewInMemoryBlobDescriptorCacheProvider 0
               "sha256:aa" (blob "sha256:aa" 1)).1 q k
          = mbdc.Stat NewInMemoryBlobDescriptorCacheProvider q k).
Proof.
  apply (X1_leaf_last_write_wins NewInMemoryBlobDescriptorCacheProvider 0
           "sha256:aa" (blob "sha256:aa" 1) (blob "sha256:aa" 2)).
  - simpl. lia.
  - by vm_compute.
  - by vm_compute.
  - by vm_compute.
Defined.

(** A descriptor with an empty media type under an unknown sha512 key: the
    leaf cache refuses the canonical store, and the error comes back. *)
Lemma X2_witness :
  ((imbdcp.SetDescriptor (mem fresh_system) "sha512:cc"
      (mkDescriptor "" 1 "sha256:bb")).1 = mem fresh_system ∧
   (∀ e, (imbdcp.SetDescriptor (mem fresh_system) "sha512:cc"
            (mkDescriptor "" 1 "sha256:bb")).2 = Returns (Some e) →
         e = ErrInvalidDigest ∨ e = ErrInvalidDescriptor)) ∧
  (imbdcp.SetDescriptor (mem fresh_system) "sha512:cc"
     (mkDescriptor "" 1 "sha256:bb")).2 = Returns (Some ErrInvalidDescriptor).
Proof.
  split.
  - apply (X2_provider_failure_writes_nothing fresh_system "sha512:cc"
             (mkDescriptor "" 1 "sha256:bb")).
    + by exists [].
    + by vm_compute.
  - by vm_compute.
Defined.

Lemma X3_witness :
  (imbdcp.SetDescriptor (mem fresh_system) "sha512:cc" (blob "sha256:bb" 1)).2 = Returns None ↔
  (∃ V0, imbdcp.Stat (mem fresh_system) "sha512:cc" = Ok V0) ∨
  (imbdcp.Stat (mem fresh_system) "sha512:cc" = Err ErrBlobUnknown ∧
   descriptor_well_formed (blob "sha256:bb" 1) = true ∧
   (Algorithm "sha512:cc" ≠ Algorithm (Digest (blob "sha256:bb" 1)) →
    digest_well_formed (Digest (blob "sha256:bb" 1)) = true)).
Proof.
  apply (X3_provider_success fresh_system "sha512:cc" (blob "sha256:bb" 1)).
  by exists [].
Defined.

Lemma X4_witness :
  length (caches (mem scenario.two_repositories))
  = S (size (repositories (provider (mem scenario.two_repositories)))) ∧
  (∀ R1 R2 p,
     repositories (provider (mem scenario.two_repositories)) !! R1 = Some p →
     repositories (provider (mem scenario.two_repositories)) !! R2 = Some p →
     R1 = R2) ∧
  (∀ R p,
     repositories (provider (mem scenario.two_repositories)) !! R = Some p →
     p ≠ global (provider (mem scenario.two_repositories)) ∧
     p < length (caches (mem scenario.two_repositories))).
Proof.
  apply (X4_one_leaf_cache_per_repository scenario.two_repositories).
  by eexists.
Defined.

Lemma two_repositories_reachable : reachable scenario.two_repositories.
Proof. by eexists. Defined.

Lemma two_views_reachable : reachable scenario.two_views.
Proof. by eexists. Defined.

Lemma ubuntu_in_two_repositories :
  mkView "library/ubuntu" (Some 1) ∈ views scenario.two_repositories.
Proof. apply (list_elem_of_lookup_2 _ 0). by vm_compute. Defined.

Lemma busybox_in_two_repositories :
  mkView "library/busybox" (Some 2) ∈ views scenario.two_repositories.
Proof. apply (list_elem_of_lookup_2 _ 1). by vm_compute. Defined.

Lemma unbound_in_two_views :
  mkView "library/ubuntu" None ∈ views scenario.two_views.
Proof. apply (list_elem_of_lookup_2 _ 0). by vm_compute. Defined.

Lemma X5_witness :
  (∀ w k, w ∈ views scenario.two_repositories →
     rsimbdcp.Stat
       (imbdcp.SetDescriptor (mem scenario.two_repositories)
          "sha256:bb" (blob "sha256:bb" 3)).1 w k
     = rsimbdcp.Stat (mem scenario.two_repositories) w k) ∧
  (∀ R,
     imbdcp.RepositoryScoped
       (imbdcp.SetDescriptor (mem scenario.two_repositories)
          "sha256:bb" (blob "sha256:bb" 3)).1 R
     = imbdcp.RepositoryScoped (mem scenario.two_repositories) R).
Proof.
  apply (X5_global_write_invisible_to_views scenario.two_repositories).
  apply two_repositories_reachable.
Defined.

Lemma X6_witness :
  (∀ k,
     rsimbdcp.Stat
       (rsimbdcp.SetDescriptor (mem scenario.two_repositories)
          (mkView "library/ubuntu" (Some 1))
          "sha256:bb" (blob "sha256:bb" 3)).1.1
       (mkView "library/busybox" (Some 2)) k
     = rsimbdcp.Stat (mem scenario.two_repositories)
         (mkView "library/busybox" (Some 2)) k) ∧
  imbdcp.RepositoryScoped
    (rsimbdcp.SetDescriptor (mem scenario.two_repositories)
       (mkView "library/ubuntu" (Some 1))
       "sha256:bb" (blob "sha256:bb" 3)).1.1
    (repo (mkView "library/busybox" (Some 2)))
  = imbdcp.RepositoryScoped (mem scenario.two_repositories)
      (repo (mkView "library/busybox" (Some 2))).
Proof.
  apply (X6_repositories_isolated scenario.two_repositories).
  - apply two_repositories_reachable.
  - apply ubuntu_in_two_repositories.
  - apply busybox_in_two_repositories.
  - by vm_compute.
Defined.

Lemma X7_witness :
  rsimbdcp.Stat
    (rsimbdcp.SetDescriptor (mem scenario.two_repositories)
       (mkView "library/ubuntu" (Some 1))
       "sha256:bb" (blob "sha256:bb" 3)).1.1
    (rsimbdcp.SetDescriptor (mem scenario.two_repositories)
       (mkView "library/ubuntu" (Some 1))
       "sha256:bb" (blob "sha256:bb" 3)).1.2
    "sha256:bb" = Ok (blob "sha256:bb" 3) ∧
  (∀ w2, w2 ∈ views scenario.two_repositories →
         repo w2 = repo (mkView "library/ubuntu" (Some 1)) →
         is_Some (repository w2) →
         rsimbdcp.Stat
           (rsimbdcp.SetDescriptor (mem scenario.two_repositories)
              (mkView "library/ubuntu" (Some 1))
              "sha256:bb" (blob "sha256:bb" 3)).1.1
           w2 "sha256:bb" = Ok (blob "sha256:bb" 3)) ∧
  (∀ w2,
     imbdcp.RepositoryScoped
       (rsimbdcp.SetDescriptor (mem scenario.two_repositories)
          (mkView "library/ubuntu" (Some 1))
          "sha256:bb" (blob "sha256:bb" 3)).1.1
       (repo (mkView "library/ubuntu" (Some 1))) = Ok w2 →
     rsimbdcp.Stat
       (rsimbdcp.SetDescriptor (mem scenario.two_repositories)
          (mkView "library/ubuntu" (Some 1))
          "sha256:bb" (blob "sha256:bb" 3)).1.1
       w2 "sha256:bb" = Ok (blob "sha256:bb" 3)).
Proof.
  apply (X7_views_share_the_leaf_cache scenario.two_repositories
           (mkView "library/ubuntu" (Some 1))).
  - apply two_repositories_reachable.
  - apply ubuntu_in_two_repositories.
  - by vm_compute.
Defined.

(** The view of library/ubuntu writes a sha256 descriptor under a sha512 key:
    the global cache learns both digests, the view only the key. *)
Lemma X8_witness :
  rsimbdcp.Stat
    (rsimbdcp.SetDescriptor (mem scenario.two_views)
       (mkView "library/ubuntu" None) "sha512:cc" (blob "sha256:bb" 3)).1.1
    (rsimbdcp.SetDescriptor (mem scenario.two_views)
       (mkView "library/ubuntu" None) "sha512:cc" (blob "sha256:bb" 3)).1.2
    "sha256:bb"
  = rsimbdcp.Stat (mem scenario.two_views) (mkView "library/ubuntu" None)
      "sha256:bb" ∧
  imbdcp.Stat
    (rsimbdcp.SetDescriptor (mem scenario.two_views)
       (mkView "library/ubuntu" None) "sha512:cc" (blob "sha256:bb" 3)).1.1
    "sha256:bb" = Ok (blob "sha256:bb" 3).
Proof.
  split.
  - apply (X8_view_write_stores_one_entry scenario.two_views
             (mkView "library/ubuntu" None) (mkView "library/ubuntu" None)).
    + apply two_views_reachable.
    + apply unbound_in_two_views.
    + by vm_compute.
    + by vm_compute.
    + by vm_compute.
  - by vm_compute.
Defined.

Lemma X9_witness :
  (rsimbdcp.SetDescriptor (mem scenario.two_views)
     (mkView "library/ubuntu" None) "sha512:cc" (blob "sha256:bb" 3)).2 = Returns None ↔
  digest_well_formed "sha512:cc" = true ∧
  descriptor_well_formed (blob "sha256:bb" 3) = true ∧
  ((∃ V0, imbdcp.Stat (mem scenario.two_views) "sha512:cc" = Ok V0) ∨
   Algorithm "sha512:cc" = Algorithm (Digest (blob "sha256:bb" 3)) ∨
   digest_well_formed (Digest (blob "sha256:bb" 3)) = true).
Proof.
  apply (X9_view_success scenario.two_views (mkView "library/ubuntu" None)).
  - apply two_views_reachable.
  - apply unbound_in_two_views.
Defined.

Lemma X10_witness :
  digest_well_formed "sha256:aa" = true ∧
  descriptor_well_formed (blob "sha256:aa" 1) = true.
Proof.
  destruct (X10_stat_returns_validated_descriptors scenario.two_repositories
              "sha256:aa" (blob "sha256:aa" 1) two_repositories_reachable)
    as [Hglobal _].
  apply Hglobal. by vm_compute.
Defined.

Lemma X11_witness :
  ∃ V', imbdcp.Stat
          (mem (run scenario.two_repositories
                  [CallSetDescriptor "sha256:aa" (blob "sha256:aa" 4);
                   CallViewSetDescriptor 1 "sha256:bb" (blob "sha256:bb" 3)]))
          "sha256:aa" = Ok V'.
Proof.
  destruct (X11_known_digests_stay_known scenario.two_repositories
              [CallSetDescriptor "sha256:aa" (blob "sha256:aa" 4);
               CallViewSetDescriptor 1 "sha256:bb" (blob "sha256:bb" 3)]
              "sha256:aa" (blob "sha256:aa" 1)) as [Hglobal _].
  apply Hglobal. by vm_compute.
Defined.

Lemma X12_witness :
  ∃ V', imbdcp.Stat (mem scenario.two_repositories) "sha256:aa" = Ok V'.
Proof.
  apply (X12_repository_scopes_are_mirrored
           sample_descriptor_digest_checked scenario.two_repositories
           (mkView "library/busybox" (Some 2)) "sha256:aa"
           (blob "sha256:aa" 2)).
  - apply two_repositories_reachable.
  - left. apply busybox_in_two_repositories.
  - by vm_compute.
Defined.

(** The stale view is refused a write: it comes out bound to the leaf cache
    the other view filled, and nothing else has changed. *)
Lemma X13_witness :
  ((digest_well_formed "not-a-digest" = false ∨
    descriptor_well_formed (blob "sha256:aa" 1) = false) ∧
   (∀ k,
      imbdcp.Stat
        (mem (exec scenario.stale_view
                (CallViewSetDescriptor 0 "not-a-digest" (blob "sha256:aa" 1))))
        k
      = imbdcp.Stat (mem scenario.stale_view) k) ∧
   (∀ j w2 k, j ≠ 0 → views scenario.stale_view !! j = Some w2 →
      views
        (exec scenario.stale_view
           (CallViewSetDescriptor 0 "not-a-digest" (blob "sha256:aa" 1))) !! j
      = Some w2 ∧
      rsimbdcp.Stat
        (mem (exec scenario.stale_view
                (CallViewSetDescriptor 0 "not-a-digest" (blob "sha256:aa" 1))))
        w2 k
      = rsimbdcp.Stat (mem scenario.stale_view) w2 k) ∧
   (∃ w',
      views
        (exec scenario.stale_view
           (CallViewSetDescriptor 0 "not-a-digest" (blob "sha256:aa" 1))) !! 0
      = Some w' ∧
      is_Some (repository w') ∧
      ∀ w0 k,
        imbdcp.RepositoryScoped (mem scenario.stale_view)
          (repo (mkView "library/ubuntu" None)) = Ok w0 →
        digest_well_formed k = true →
        rsimbdcp.Stat
          (mem (exec scenario.stale_view
                  (CallViewSetDescriptor 0 "not-a-digest"
                     (blob "sha256:aa" 1))))
          w' k
        = rsimbdcp.Stat (mem scenario.stale_view) w0 k)) ∧
  rsimbdcp.Stat (mem scenario.stale_view) (mkView "library/ubuntu" None)
    "sha256:aa" = Err ErrBlobUnknown ∧
  rsimbdcp.Stat
    (rsimbdcp.SetDescriptor (mem scenario.stale_view)
       (mkView "library/ubuntu" None) "not-a-digest" (blob "sha256:aa" 1)).1.1
    (rsimbdcp.SetDescriptor (mem scenario.stale_view)
       (mkView "library/ubuntu" None) "not-a-digest" (blob "sha256:aa" 1)).1.2
    "sha256:aa" = Ok (blob "sha256:aa" 1).
Proof.
  split; [|split].
  - apply (X13_view_failure_stores_nothing sample_descriptor_digest_checked
             scenario.stale_view 0 (mkView "library/ubuntu" None)
             "not-a-digest" (blob "sha256:aa" 1)).
    + by eexists.
    + by vm_compute.
    + by vm_compute.
  - by vm_compute.
  - by vm_compute.
Defined.

(** The global cache holds the descriptor library/ubuntu wrote first; a
    second write under the digest and a write under another digest leave
    it. *)
Lemma X14_witness :
  imbdcp.Stat
    (mem (run scenario.two_repositories
            [CallSetDescriptor "sha256:aa" (blob "sha256:aa" 4);
             CallViewSetDescriptor 1 "sha512:cc" (blob "sha256:bb" 3)]))
    "sha256:aa" = Ok (blob "sha256:aa" 1).
Proof.
  apply (X14_first_descriptor_stays scenario.two_repositories).
  - apply two_repositories_reachable.
  - by vm_compute.
  - repeat constructor; by vm_compute.
Defined.

Lemma X15_witness :
  repository_name_well_formed (repo (mkView "library/busybox" (Some 2))) = true.
Proof.
  apply (X15_views_carry_validated_names scenario.two_repositories).
  - apply two_repositories_reachable.
  - apply busybox_in_two_repositories.
Defined.
End further_examples.
